(** * MSF Pal alliance report generator: the aggregation and ranking engine

    A shallow embedding of [main.go]: the grouping loop of [main], the
    comparator [ByAverageTotalTeamPower.Less], the team catalog and
    [generateAverageTeamPowerByPlayerReport], followed by the properties
    the specification states about them.

    Conventions.
    - Go's [int] is the 64-bit two's complement integer of the linux/amd64
      build: a [Z] that every addition wraps ([GoInt.add]).
    - [interface{}] cells are the tagged union [Cell].
    - [map[string]T] is stdpp's [gmap string T]; a [range] over a map visits
      the entries in an unspecified order, and the loops below are shown not
      to depend on it.
    - A run-time panic (index out of range, division by zero) is [None].
    - The standard library's [sort.Sort] is taken by its documented
      contract, as a relation between the slice before and after. *)

From Stdlib Require Import ZArith Lia Ascii.
From stdpp Require Import gmap strings list fin_maps sorting pretty.

Local Open Scope Z_scope.

(** ** Go's [int] *)

Module GoInt.

Definition min_int : Z := - 2 ^ 63.
Definition max_int : Z := 2 ^ 63 - 1.

Definition in_range (z : Z) : Prop := min_int ≤ z ≤ max_int.

(** Reduction of a mathematical integer to its 64-bit representative. *)
Definition wrap (z : Z) : Z := (z + 2 ^ 63) `mod` 2 ^ 64 - 2 ^ 63.

(** [a + b] and [a += b]. *)
Definition add (a b : Z) : Z := wrap (a + b).

(** [a / b]: truncation toward zero; a zero divisor panics. *)
Definition div (a b : Z) : option Z :=
  if decide (b = 0) then None else Some (wrap (a `quot` b)).

(** The value of [total] after [for _, x := range l { total += x }]. *)
Definition sum_from (total : Z) (l : list Z) : Z := foldl add total l.

(** The mathematical sum, for comparison. *)
Definition sumZ (l : list Z) : Z := foldr Z.add 0 l.

End GoInt.

(** ** Data model *)

(** [MSFPlayerCharacter]: the current state of a player's character. *)
Record MSFPlayerCharacter := {
  Basic : Z;
  Favorite : bool;
  GearLevel : Z;
  ID : string;
  Level : Z;
  Passive : Z;
  Player : string;
  Power : Z;
  RedStars : Z;
  Special : Z;
  Ultimate : Z;
  Unlocked : bool;
  YellowStars : Z
}.

(** [MSFPlayerCharacters] *)
Abbreviation MSFPlayerCharacters := (list MSFPlayerCharacter).

(** [MSFTeam] *)
Record MSFTeam := {
  Name : string;
  Label : string;
  Characters : list string
}.

(** A value of type [interface{}] as the program stores it in a sheet cell:
    the zero value [nil], a [string] or an [int]. *)
Inductive Cell :=
  | CNil
  | CString (s : string)
  | CInt (n : Z).

Global Instance Cell_eq_dec : EqDecision Cell.
Proof. solve_decision. Defined.

(** One row of [[][]interface{}]. *)
Abbreviation Row := (list Cell).

(** ** [ByAverageTotalTeamPower] *)

(** [a[i][len(a[i])-1]]: the trailing cell of row [i]; indexing a missing row
    or an empty row panics. *)
Definition trailing (a : list Row) (i : nat) : option Cell :=
  r ← a !! i;
  match r with
  | [] => None
  | _ => r !! (length r - 1)%nat
  end.

(** [v, ok := c.(int)] *)
Definition assert_int (c : Cell) : option Z :=
  match c with
  | CInt n => Some n
  | _ => None
  end.

(** [func (a ByAverageTotalTeamPower) Less(i, j int) bool] *)
Definition Less (a : list Row) (i j : nat) : option bool :=
  ci ← trailing a i;
  match assert_int ci with
  | None => Some true
  | Some averageTotalTeamPowerA =>
      cj ← trailing a j;
      match assert_int cj with
      | None => Some false
      | Some averageTotalTeamPowerB =>
          Some (bool_decide (averageTotalTeamPowerA > averageTotalTeamPowerB))
      end
  end.

(** [Less] read on the two rows it compares. *)
Definition less_rows (ri rj : Row) : option bool :=
  ci ← last ri;
  match assert_int ci with
  | None => Some true
  | Some x =>
      cj ← last rj;
      match assert_int cj with
      | None => Some false
      | Some y => Some (bool_decide (x > y))
      end
  end.

(** [func (a ByAverageTotalTeamPower) Len() int] *)
Definition Len (a : list Row) : nat := length a.

(** [func (a ByAverageTotalTeamPower) Swap(i, j int)]: both rows must exist. *)
Definition Swap (a : list Row) (i j : nat) : option (list Row) :=
  ri ← a !! i;
  rj ← a !! j;
  Some (<[j := ri]> (<[i := rj]> a)).

(** ** The contract of [sort.Sort]

    [sort.IsSorted(data)] of the standard library:
    [for i := n - 1; i > 0; i-- { if data.Less(i, i-1) { return false } }
     return true]. *)
Fixpoint IsSorted_from (a : list Row) (i : nat) : option bool :=
  match i with
  | O => Some true
  | S i' =>
      b ← Less a i i';
      if b : bool then Some false else IsSorted_from a i'
  end.

Definition IsSorted (a : list Row) : option bool :=
  IsSorted_from a (Len a - 1).

(** [sort.Sort(data)] rearranges [data] with [Swap] only and leaves it
    sorted as determined by [Less]; it is documented as not stable, and
    which of the sorted rearrangements it produces depends on the release
    of the library.  [sort_Sort a out] holds of every outcome [out] the
    contract allows for the slice [a]. *)
Definition sort_Sort (a out : list Row) : Prop :=
  a ≡ₚ out ∧ IsSorted out = Some true.

(** ** Reading a sorted table *)

(** The [int] in the trailing cell of a row, 0 when there is none. *)
Definition trailing_int (r : Row) : Z :=
  match last r with
  | Some (CInt x) => x
  | _ => 0
  end.

(** Row [r1] may stand before row [r2] in a descending ranking. *)
Definition ranks_before (r1 r2 : Row) : Prop := trailing_int r2 ≤ trailing_int r1.

Global Instance ranks_before_dec : RelDecision ranks_before.
Proof. intros r1 r2. unfold ranks_before. apply _. Defined.

(** The trailing cell of a row holds an [int]. *)
Definition int_row (r : Row) : Prop := ∃ x, last r = Some (CInt x).

(** The trailing cell of a row exists and does not hold an [int]. *)
Definition non_int_row (r : Row) : Prop :=
  ∃ c, last r = Some c ∧ assert_int c = None.

(** One outcome the contract of [sort.Sort] allows for a header followed by
    [rows]: the header, then the rows in descending order, ties in their
    order of arrival. *)
Definition stable_outcome (header : Row) (rows : list Row) : list Row :=
  header :: merge_sort ranks_before rows.

(** ** [strings.ToLower]

    The standard library lower-cases a string that has only ASCII bytes
    byte by byte, and hands any other string to [unicode.ToLower] rune by
    rune.  The Unicode tables are not part of this development: the second
    path is the parameter [unicode_ToLower] of everything below. *)

Definition is_ascii_byte (c : ascii) : bool := (N_of_ascii c <? 128)%N.

Definition is_upper_byte (c : ascii) : bool :=
  (65 <=? N_of_ascii c)%N && (N_of_ascii c <=? 90)%N.

(** [if 'A' <= c && c <= 'Z' { c += 'a' - 'A' }] *)
Definition lower_byte (c : ascii) : ascii :=
  if is_upper_byte c then ascii_of_N (N_of_ascii c + 32) else c.

Fixpoint isASCII (s : string) : bool :=
  match s with
  | EmptyString => true
  | String c s' => is_ascii_byte c && isASCII s'
  end.

Fixpoint map_bytes (f : ascii → ascii) (s : string) : string :=
  match s with
  | EmptyString => EmptyString
  | String c s' => String (f c) (map_bytes f s')
  end.

(** [strconv.Itoa] *)
Definition Itoa (n : Z) : string := pretty n.

(** ** Package-level data *)

Definition sheetCellIndexToLetter : list string :=
  ["A"; "B"; "C"; "D"; "E"; "F"; "G"; "H"; "I"; "J"; "K"; "L"; "M";
   "N"; "O"; "P"; "Q"; "R"; "S"; "T"; "U"; "V"; "W"; "X"; "Y"; "Z"]%string.

Local Open Scope string_scope.

Definition aim : MSFTeam := {|
  Name := "A.I.M."; Label := "AIM";
  Characters := ["scientist-supreme"; "graviton"; "aim-monstruosity";
                 "aim-assualter"; "aim-security"] |}.

Definition asgardian : MSFTeam := {|
  Name := "Asgardian"; Label := "ASG";
  Characters := ["hela"; "thor"; "loki"; "sif"; "heimdall"] |}.

Definition avengers : MSFTeam := {|
  Name := "Avengers"; Label := "AVG";
  Characters := ["captain-america"; "captain-marvel"; "hulk"; "black-widow";
                 "hawkeye"] |}.

Definition blackOrder : MSFTeam := {|
  Name := "Black Order"; Label := "BO";
  Characters := ["ebony-maw"; "thanos"; "cull-obsidian"; "corvus-glaive";
                 "proxima-midnight"] |}.

Definition brawlers : MSFTeam := {|
  Name := "Brawlers"; Label := "BRAWL";
  Characters := ["america-chavez"; "squirrelgirl"; "miss-marvel"; "psylocke";
                 "wolverine"] |}.

Definition brotherhoodV2 : MSFTeam := {|
  Name := "Brotherhood V2"; Label := "BH2";
  Characters := ["juggernaut"; "toad"; "blob"; "pyro"; "magneto"] |}.

Definition defenders : MSFTeam := {|
  Name := "Defenders"; Label := "DEF";
  Characters := ["luke-cage"; "jessica-jones"; "iron-fist"; "daredevil";
                 "punisher"] |}.

Definition defTron : MSFTeam := {|
  Name := "Deftron"; Label := "DEFTRON";
  Characters := ["ultron"; "jessica-jones"; "iron-fist"; "daredevil";
                 "punisher"] |}.

Definition fantasticFour : MSFTeam := {|
  Name := "Fantastic Four"; Label := "F4";
  Characters := ["invisible-woman"; "the-thing"; "human-torch";
                 "mister-fantastic"; "namor"] |}.

Definition guardians : MSFTeam := {|
  Name := "Guardians of the Galaxy"; Label := "GOG";
  Characters := ["star-lord"; "groot"; "drax"; "rocket-racoon"; "mantis"] |}.

Definition hydra : MSFTeam := {|
  Name := "Hydra"; Label := "HY";
  Characters := ["hydra-armored-guard"; "hydra-scientist";
                 "hydra-rifle-trooper"; "hydra-sniper"; "red-skull"] |}.

Definition hydraV2 : MSFTeam := {|
  Name := "Hydra V2"; Label := "HY2";
  Characters := ["hydra-grenadier"; "winter-soldier"; "kingpin";
                 "crossbones"] |}.

Definition inhumans : MSFTeam := {|
  Name := "Inhumans"; Label := "INH";
  Characters := ["quake"; "crystal"; "karnak"; "yoyo"; "black-bolt"] |}.

Definition marauders : MSFTeam := {|
  Name := "Marauders"; Label := "MAR";
  Characters := ["mister-sinister"; "sabretooth"; "emmafrost"; "mystique";
                 "stryfe"] |}.

Definition mawTron : MSFTeam := {|
  Name := "Mawtron"; Label := "MAWTRON";
  Characters := ["ultron"; "ebony-maw"; "black-bolt"; "minn-erva";
                 "thanos"] |}.

Definition mercenaries : MSFTeam := {|
  Name := "Mercenaries"; Label := "MERC";
  Characters := ["taskmaster"; "mercenary-sniper"; "mercenary-riot-guard";
                 "mercenary-lieutenant"; "bullseye"] |}.

Definition powerArmorV2 : MSFTeam := {|
  Name := "Power Armor V2"; Label := "PA2";
  Characters := ["iron-man"; "iron-heart"; "war-machine"; "falcon";
                 "rescue"] |}.

Definition shieldCoulson : MSFTeam := {|
  Name := "S.H.I.E.L.D. Coulson"; Label := "SHC";
  Characters := ["nick-fury"; "coulson"; "shield-medic"; "shield-security";
                 "shield-assault"] |}.

Definition sinisterSix : MSFTeam := {|
  Name := "Sinister 6"; Label := "S6";
  Characters := ["rhino"; "green-goblin"; "shocker"; "vulture";
                 "mysterio"] |}.

Definition supernatural : MSFTeam := {|
  Name := "Supernatural"; Label := "SN";
  Characters := ["mordo"; "ghost-rider"; "scarlet-witch"; "doctor-strange";
                 "elsa-bloodstone"] |}.

Definition symbiotes : MSFTeam := {|
  Name := "Symbiotes"; Label := "SYM";
  Characters := ["spider-man-symbiote"; "carnage"; "venom"; "spider-man";
                 "spider-man-miles"] |}.

Definition symTech : MSFTeam := {|
  Name := "SymTech"; Label := "SYMTECH";
  Characters := ["spider-man-symbiote"; "carnage"; "venom";
                 "scientist-supreme"; "shuri"] |}.

Definition techWing : MSFTeam := {|
  Name := "TechWing"; Label := "TECHWING";
  Characters := ["ultron"; "scientist-supreme"; "shuri"; "minn-erva";
                 "falcon"] |}.

Definition ultronsAngels : MSFTeam := {|
  Name := "Ultron's Angels"; Label := "ANGELTRON";
  Characters := ["ultron"; "shuri"; "scientist-supreme"; "invisible-woman";
                 "minn-erva"] |}.

Definition wakandans : MSFTeam := {|
  Name := "Wakandans"; Label := "WAK";
  Characters := ["shuri"; "black-panther"; "killmonger"; "mbaku";
                 "okoye"] |}.

Definition xForce : MSFTeam := {|
  Name := "X-Force"; Label := "XFORCE";
  Characters := ["negasonic"; "cable"; "deadpool"; "domino"; "x23"] |}.

Definition xMen : MSFTeam := {|
  Name := "X-Men"; Label := "XMEN";
  Characters := ["wolverine"; "colossus"; "cyclops"; "storm"; "phoenix"] |}.

(** The [teams] slices of the four report functions
    ([generateTopWarOffenseTeamsByPlayerReport] and its siblings) with the
    sheet names they pass on. *)
Definition offenseTeams : list MSFTeam :=
  [blackOrder; brotherhoodV2; defTron; fantasticFour; hydraV2; inhumans;
   powerArmorV2; supernatural; symbiotes; xForce; xMen].

Definition defenseTeams : list MSFTeam :=
  [asgardian; hydra; marauders; mercenaries; shieldCoulson; avengers;
   brawlers; sinisterSix].

Definition flexTeams : list MSFTeam := [aim; defenders; guardians; wakandans].

Definition u7Teams : list MSFTeam := [mawTron; symTech; techWing; ultronsAngels].

Definition reportCategories : list (string * list MSFTeam) :=
  [("Offense", offenseTeams); ("Defense", defenseTeams);
   ("Flex", flexTeams); ("U7", u7Teams)].

Local Open Scope list_scope.
Local Open Scope Z_scope.

(** ** Loops that may panic *)

(** [for _, x := range l { s = body(s, x) }] where [body] may panic. *)
Fixpoint for_range {S A : Type} (body : S → A → option S) (s : S) (l : list A)
  : option S :=
  match l with
  | [] => Some s
  | x :: l' => s' ← body s x; for_range body s' l'
  end.

(** [cv[i][j] = v]: row [i] and its column [j] must exist. *)
Definition set_cell (cv : list Row) (i j : nat) (v : Cell) : option (list Row) :=
  r ← cv !! i;
  if decide (j < length r)%nat then Some (<[i := <[j := v]> r]> cv) else None.

(** [sort.Strings]: ascending byte-wise order.  Every sorting algorithm
    returns the same slice of strings, so a fixed one stands for it. *)
Definition sort_Strings (l : list string) : list string := merge_sort String.le l.

(** [fmt.Sprintf("%s!A1:%s%s", sheetName, sheetCellIndexToLetter[columns-1],
    strconv.Itoa(rows))] for a table of [columns] columns and [rows] rows. *)
Definition rangeAddress (sheetName : string) (columns rows : nat) : option string :=
  match columns with
  | O => None
  | S k =>
      letter ← sheetCellIndexToLetter !! k;
      Some (sheetName +:+ "!A1:" +:+ letter +:+ Itoa (Z.of_nat rows))
  end.

(** The [writeRange] of a sorted table [cellValues]:
    [len(cellValues[0])] columns and [len(cellValues)] rows. *)
Definition writeRange_of (sheetName : string) (cellValues : list Row) : option string :=
  header ← cellValues !! 0%nat;
  rangeAddress sheetName (length header) (length cellValues).

(** ** [main]: grouping the characters by player *)

(** The body of [for _, character := range msfPlayerCharacters]. *)
Definition group_character (playerCharactersMap : gmap string MSFPlayerCharacters)
    (character : MSFPlayerCharacter) : gmap string MSFPlayerCharacters :=
  match playerCharactersMap !! Player character with
  | Some characters =>
      <[Player character := characters ++ [character]]> playerCharactersMap
  | None => <[Player character := [character]]> playerCharactersMap
  end.

Definition group_by_player (msfPlayerCharacters : MSFPlayerCharacters)
  : gmap string MSFPlayerCharacters :=
  foldl group_character ∅ msfPlayerCharacters.

(** Checks that [result] is an outcome of the report for closed inputs:
    the loops are evaluated, and the rows of [result] are compared with the
    table row by row. *)
Ltac check_report table :=
  exists table; split;
  [ vm_compute; reflexivity
  | split;
    [ split; [ apply (bool_decide_unpack _); vm_compute; exact I
             | vm_compute; reflexivity ]
    | vm_compute; reflexivity ] ].

Section Report.

(** [strings.Map(unicode.ToLower, s)] for a string with a byte above 0x7F. *)
Variable unicode_ToLower : string → string.

Definition ToLower (s : string) : string :=
  if isASCII s then map_bytes lower_byte s else unicode_ToLower s.

(** ** [generateAverageTeamPowerByPlayerReport] *)

(** [teamTotalPower] after the two loops over [team.Characters] and
    [characters]. *)
Definition teamTotalPower (team : MSFTeam) (characters : MSFPlayerCharacters) : Z :=
  foldl (λ total teamCharacter,
    foldl (λ total character,
      if decide (ToLower (ID character) = teamCharacter)
      then GoInt.add total (Power character) else total)
      total characters)
    0 (Characters team).

(** The body of [for player, characters := range playerCharactersMap]. *)
Definition team_player_step (team : MSFTeam) (playerTeamsMap : gmap string (list Z))
    (entry : string * MSFPlayerCharacters) : gmap string (list Z) :=
  let '(player, characters) := entry in
  let playerTeamsMap :=
    match playerTeamsMap !! player with
    | Some _ => playerTeamsMap
    | None => <[player := []]> playerTeamsMap
    end in
  <[player := default [] (playerTeamsMap !! player)
              ++ [teamTotalPower team characters]]> playerTeamsMap.

(** The loop [for _, team := range teams], the inner [range] visiting the
    entries of the map in the order [entries]. *)
Definition playerTeamsMap_loop (entries : list (string * MSFPlayerCharacters))
    (teams : list MSFTeam) : gmap string (list Z) :=
  foldl (λ playerTeamsMap team, foldl (team_player_step team) playerTeamsMap entries)
    ∅ teams.

Definition playerTeamsMap_of (playerCharactersMap : gmap string MSFPlayerCharacters)
    (teams : list MSFTeam) : gmap string (list Z) :=
  playerTeamsMap_loop (map_to_list playerCharactersMap) teams.

(** [cellValues[0]] once the header is set up. *)
Definition header_row (teams : list MSFTeam) : Row :=
  ([CString "Player"] ++ (CString ∘ Label <$> teams)) ++ [CString "Average"].

(** [cellValues] after "Initialize cell values" and "Setup table header
    row": [players + 1] rows of [len(teams) + 2] nil cells, the first one
    replaced by the header. *)
Definition initial_cellValues (players : nat) (teams : list MSFTeam) : list Row :=
  <[0%nat := header_row teams]>
    (replicate (players + 1) (replicate (length teams + 2) CNil)).

(** The body of [for playerIndex, player := range playerKeys] at column
    [columnIndex] of a table of [columns] columns. *)
Definition fill_cell (playerTeamsMap : gmap string (list Z)) (columns columnIndex : nat)
    (cellValues : list Row) (entry : nat * string) : option (list Row) :=
  let '(playerIndex, player) := entry in
  let teamTotals := default [] (playerTeamsMap !! player) in
  if decide (columnIndex = 0)%nat then
    set_cell cellValues (playerIndex + 1) columnIndex (CString player)
  else if decide (columnIndex = columns - 1)%nat then
    let totalPower := GoInt.sum_from 0 teamTotals in
    average ← GoInt.div totalPower (Z.of_nat (length teamTotals));
    set_cell cellValues (playerIndex + 1) columnIndex (CInt average)
  else
    teamTotalPower ← teamTotals !! (columnIndex - 1)%nat;
    set_cell cellValues (playerIndex + 1) columnIndex (CInt teamTotalPower).

(** The table handed to [sort.Sort].  Row 0 is not written by the column
    loop ([playerIndex + 1 ≥ 1]), so its bound [len(cellValues[0])] is read
    once. *)
Definition build_cellValues (playerCharactersMap : gmap string MSFPlayerCharacters)
    (teams : list MSFTeam) : option (list Row) :=
  let playerTeamsMap := playerTeamsMap_of playerCharactersMap teams in
  let cellValues := initial_cellValues (size playerTeamsMap) teams in
  let playerKeys := sort_Strings (map_to_list playerTeamsMap).*1 in
  header ← cellValues !! 0%nat;
  for_range
    (λ cellValues columnIndex,
       for_range (fill_cell playerTeamsMap (length header) columnIndex)
         cellValues (zip (seq 0 (length playerKeys)) playerKeys))
    cellValues (seq 0 (length header)).

(** [generateAverageTeamPowerByPlayerReport(playerCharactersMap, teams,
    sheetName)] returns [(writeRange, valueRange)] where
    [valueRange.Values] is the table after [sort.Sort]. *)
Definition generateAverageTeamPowerByPlayerReport
    (playerCharactersMap : gmap string MSFPlayerCharacters) (teams : list MSFTeam)
    (sheetName : string) (result : string * list Row) : Prop :=
  ∃ cellValues,
    build_cellValues playerCharactersMap teams = Some cellValues ∧
    sort_Sort cellValues result.2 ∧
    writeRange_of sheetName result.2 = Some result.1.

(** ** The table, row by row

    What the loops above compute, written as one expression per row; the
    two are shown equal below ([build_cellValues_table]). *)

(** The per-team totals of one player, in the order of [teams]. *)
Definition team_totals (teams : list MSFTeam) (characters : MSFPlayerCharacters)
  : list Z :=
  (λ team, teamTotalPower team characters) <$> teams.

(** [totalPower / len(playerTeamsMap[player])] *)
Definition average_of (teamTotals : list Z) : Z :=
  GoInt.wrap (GoInt.sum_from 0 teamTotals `quot` Z.of_nat (length teamTotals)).

Definition player_row (player : string) (teamTotals : list Z) : Row :=
  CString player :: (CInt <$> teamTotals) ++ [CInt (average_of teamTotals)].

Definition playerKeys_of (playerCharactersMap : gmap string MSFPlayerCharacters)
  : list string :=
  sort_Strings (map_to_list playerCharactersMap).*1.

Definition player_rows (playerCharactersMap : gmap string MSFPlayerCharacters)
    (teams : list MSFTeam) : list Row :=
  match teams with
  | [] => []
  | _ =>
      (λ player,
         player_row player
           (team_totals teams (default [] (playerCharactersMap !! player))))
        <$> playerKeys_of playerCharactersMap
  end.

Definition table_of (playerCharactersMap : gmap string MSFPlayerCharacters)
    (teams : list MSFTeam) : list Row :=
  header_row teams :: player_rows playerCharactersMap teams.

(** A row of which the first [filled] cells are written and the others are
    still nil. *)
Definition partial_row (columns filled : nat) (r : Row) : Row :=
  take filled r ++ replicate (columns - filled) CNil.

(** The per-team total as the specification words it: the sum of [power]
    over exactly the records whose lower-cased [itemID] is one of the
    team's [memberIDs]. *)
Definition spec_team_total (team : MSFTeam) (characters : MSFPlayerCharacters) : Z :=
  GoInt.sumZ
    (Power <$> filter (λ character, ToLower (ID character) ∈ Characters team) characters).

(** The records that match the members of a team, once for every
    occurrence of their lower-cased [ID] in the list of members. *)
Definition matches (team : MSFTeam) (characters : MSFPlayerCharacters)
  : MSFPlayerCharacters :=
  teamCharacter ← Characters team;
  filter (λ character, ToLower (ID character) = teamCharacter) characters.

(** The complete row of a player of [playerTeamsMap]. *)
Definition full_row (playerTeamsMap : gmap string (list Z)) (player : string) : Row :=
  player_row player (default [] (playerTeamsMap !! player)).

(** The rows of [keys] with their first [filled] columns written. *)
Definition filled_rows (playerTeamsMap : gmap string (list Z)) (columns filled : nat)
    (keys : list string) : list Row :=
  (λ player, partial_row columns filled (full_row playerTeamsMap player)) <$> keys.

(** Every key has its totals in [playerTeamsMap], one per column between
    the first and the last. *)
Definition rows_ready (playerTeamsMap : gmap string (list Z)) (columns : nat)
    (keys : list string) : Prop :=
  ∀ player, player ∈ keys →
    ∃ totals, playerTeamsMap !! player = Some totals ∧ totals ≠ [] ∧
              (length totals + 2)%nat = columns.

(** A record with the three fields the report reads. *)
Definition character (id player : string) (power : Z) : MSFPlayerCharacter := {|
  Basic := 0; Favorite := false; GearLevel := 0; ID := id; Level := 0;
  Passive := 0; Player := player; Power := power; RedStars := 0; Special := 0;
  Ultimate := 0; Unlocked := true; YellowStars := 0 |}.

Definition scenario_A_map : gmap string MSFPlayerCharacters :=
  <["bob" := []]> (group_by_player [character "Hulk" "alice" 100]).

Definition HLK : MSFTeam := {| Name := "Hulk team"; Label := "HLK"; Characters := ["hulk"] |}.

(** ** Statements of the specification, for comparison *)

(** The header as the specification words it:
    ["Owner", team.displayLabel for team in category.teams, "Average"]. *)
Definition spec_header (teams : list MSFTeam) : Row :=
  (CString "Owner" :: (CString ∘ Label <$> teams)) ++ [CString "Average"].


(** The identity stands for [unicode.ToLower] in the examples: their
    strings are ASCII and never reach it. *)
Definition no_unicode (s : string) : string := s.

(** The average as the specification words it:
    [floor(sum(perTeamTotals) / teamCount)]. *)
Definition spec_average (perTeamTotals : list Z) : Z :=
  GoInt.sumZ perTeamTotals `div` Z.of_nat (length perTeamTotals).

(** The 1-based column letter (A=1 ... Z=26) of the specification. *)
Definition column_letter (columns : nat) : string :=
  String (ascii_of_nat (64 + columns)) EmptyString.

(** The table and the result of Scenario A of the specification. *)
Definition scenario_A_table : list Row :=
  [[CString "Player"; CString "HLK"; CString "Average"];
   [CString "alice"; CInt 100; CInt 100];
   [CString "bob"; CInt 0; CInt 0]].

Definition scenario_A_result : string * list Row := ("Sheet!A1:C3", scenario_A_table).

(** A team that lists one member twice, and a player who owns it. *)
Definition thorTwice : MSFTeam :=
  {| Name := "Thor twice"; Label := "TT"; Characters := ["thor"; "thor"] |}.

Definition odin_map : gmap string MSFPlayerCharacters :=
  group_by_player [character "Thor" "odin" 10].

Definition odin_result : string * list Row :=
  ("Sheet!A1:C2",
   [[CString "Player"; CString "TT"; CString "Average"];
    [CString "odin"; CInt 20; CInt 20]]).

(** A player whose "hulk" and "thor" have the power 2^62 each, and the
    table of the report over the two teams that list them. *)
Definition big_records : MSFPlayerCharacters :=
  [character "hulk" "p" (2 ^ 62); character "thor" "p" (2 ^ 62)].

Definition big_result : string * list Row :=
  ("Sheet!A1:D2",
   [[CString "Player"; CString "AVG"; CString "ASG"; CString "Average"];
    [CString "p"; CInt (2 ^ 62); CInt (2 ^ 62); CInt (- 2 ^ 62)]]).

(** The teams of the four reports. *)
Definition catalog : list MSFTeam :=
  offenseTeams ++ defenseTeams ++ flexTeams ++ u7Teams.


(** Seven players with one "hulk" each: power 1 for "a", 2 for the others. *)
Definition tie_records : MSFPlayerCharacters :=
  [character "hulk" "a" 1; character "hulk" "b" 2; character "hulk" "c" 2;
   character "hulk" "d" 2; character "hulk" "e" 2; character "hulk" "f" 2;
   character "hulk" "g" 2].

Definition tie_row (player : string) (power : Z) : Row :=
  [CString player; CInt power; CInt power].

(** Their table before the ranking sort. *)
Definition tie_table : list Row :=
  [[CString "Player"; CString "HLK"; CString "Average"];
   tie_row "a" 1; tie_row "b" 2; tie_row "c" 2; tie_row "d" 2;
   tie_row "e" 2; tie_row "f" 2; tie_row "g" 2].

(** A sorted rearrangement of it with "g" before "b". *)
Definition tie_result : string * list Row :=
  ("Sheet!A1:C8",
   [[CString "Player"; CString "HLK"; CString "Average"];
    tie_row "g" 2; tie_row "b" 2; tie_row "c" 2; tie_row "d" 2;
    tie_row "e" 2; tie_row "f" 2; tie_row "a" 1]).

(** ** [sort.Sort] in Go 1.14, for at most 12 elements

    The release of the image the program runs in sorts a slice of at most
    12 elements by one pass that compares and swaps elements six apart,
    followed by an insertion sort ([quickSort] and [insertionSort] of
    [sort/sort.go]).  It is one implementation within the contract
    [sort_Sort], used below only to show an outcome it really produces. *)

(** [for j := i; j > a && data.Less(j, j-1); j-- { data.Swap(j, j-1) }] *)
Fixpoint insertion_step (data : list Row) (a j : nat) : option (list Row) :=
  match j with
  | O => Some data
  | S j' =>
      if decide (a < j)%nat then
        b ← Less data j j';
        if b : bool then data' ← Swap data j j'; insertion_step data' a j'
        else Some data
      else Some data
  end.

(** [for i := a + 1; i < b; i++ { ... }] *)
Definition insertionSort (data : list Row) (a b : nat) : option (list Row) :=
  for_range (λ data i, insertion_step data a i) data (seq (a + 1) (b - (a + 1))).

(** [for i := a + 6; i < b; i++ { if data.Less(i, i-6) { data.Swap(i, i-6) } }] *)
Definition gap6_pass (data : list Row) (a b : nat) : option (list Row) :=
  for_range
    (λ data i, b ← Less data i (i - 6); if b : bool then Swap data i (i - 6) else Some data)
    data (seq (a + 6) (b - (a + 6))).

(** [quickSort(data, a, b, maxDepth)] when [b - a <= 12]. *)
Definition quickSort_small (data : list Row) (a b : nat) : option (list Row) :=
  if decide (1 < b - a)%nat then
    data' ← gap6_pass data a b; insertionSort data' a b
  else Some data.

(** ** The four reports *)

(** [generateTopWarOffenseTeamsByPlayerReport(playerCharactersMap)] and its
    three siblings: each holds of the pair it hands to [updateSheet]. *)
Definition generateTopWarOffenseTeamsByPlayerReport
    (playerCharactersMap : gmap string MSFPlayerCharacters)
    (result : string * list Row) : Prop :=
  generateAverageTeamPowerByPlayerReport playerCharactersMap offenseTeams "Offense" result.

Definition generateTopWarDefenseTeamsByPlayerReport
    (playerCharactersMap : gmap string MSFPlayerCharacters)
    (result : string * list Row) : Prop :=
  generateAverageTeamPowerByPlayerReport playerCharactersMap defenseTeams "Defense" result.

Definition generateTopWarFlexTeamsByPlayerReport
    (playerCharactersMap : gmap string MSFPlayerCharacters)
    (result : string * list Row) : Prop :=
  generateAverageTeamPowerByPlayerReport playerCharactersMap flexTeams "Flex" result.

Definition generateTopU7RaidTeamsByPlayerReport
    (playerCharactersMap : gmap string MSFPlayerCharacters)
    (result : string * list Row) : Prop :=
  generateAverageTeamPowerByPlayerReport playerCharactersMap u7Teams "U7" result.

(** ** The loops with the order of every [range] over a map made explicit

    [visits] pairs each team with the order in which
    [range playerCharactersMap] visits the players during that team's pass,
    and [keys] is the order in which [range playerTeamsMap] appends the
    players to [playerKeys] before [sort.Strings]. *)
Definition build_cellValues_ranged
    (visits : list (MSFTeam * list (string * MSFPlayerCharacters)))
    (keys : list string) : option (list Row) :=
  let teams := visits.*1 in
  let playerTeamsMap :=
    foldl (λ playerTeamsMap visit,
             foldl (team_player_step visit.1) playerTeamsMap visit.2)
      ∅ visits in
  let cellValues := initial_cellValues (size playerTeamsMap) teams in
  let playerKeys := sort_Strings keys in
  header ← cellValues !! 0%nat;
  for_range
    (λ cellValues columnIndex,
       for_range (fill_cell playerTeamsMap (length header) columnIndex)
         cellValues (zip (seq 0 (length playerKeys)) playerKeys))
    cellValues (seq 0 (length header)).

(** A string has a byte between 'A' and 'Z'. *)
Fixpoint has_upper_byte (s : string) : bool :=
  match s with
  | EmptyString => false
  | String c s' => is_upper_byte c || has_upper_byte s'
  end.

(** The first cells of the rows behind the header. *)
Definition player_column (table : list Row) : list (option Cell) :=
  (λ row : Row, row !! 0%nat) <$> drop 1 table.

Global Instance non_int_row_dec (r : Row) : Decision (non_int_row r).
Proof.
  unfold non_int_row. destruct (last r) as [c|].
  - destruct (assert_int c) eqn:E.
    + right. intros (c' & Hc & Hn). congruence.
    + left. by exists c.
  - right. by intros (c' & Hc & _).
Defined.

Global Instance MSFPlayerCharacter_eq_dec : EqDecision MSFPlayerCharacter.
Proof. solve_decision. Defined.

(** * Properties *)

(** ** 64-bit arithmetic *)

Lemma wrap_in_range z : GoInt.in_range (GoInt.wrap z).
Proof.
  unfold GoInt.in_range, GoInt.wrap, GoInt.min_int, GoInt.max_int.
  pose proof (Z.mod_pos_bound (z + 2 ^ 63) (2 ^ 64)). lia.
Qed.

Lemma wrap_id z : GoInt.in_range z → GoInt.wrap z = z.
Proof.
  unfold GoInt.in_range, GoInt.wrap, GoInt.min_int, GoInt.max_int. intros Hz.
  rewrite Z.mod_small; lia.
Qed.

Lemma wrap_add_l a b : GoInt.wrap (GoInt.wrap a + b) = GoInt.wrap (a + b).
Proof.
  unfold GoInt.wrap. f_equal.
  replace ((a + 2 ^ 63) `mod` 2 ^ 64 - 2 ^ 63 + b + 2 ^ 63)
    with ((a + 2 ^ 63) `mod` 2 ^ 64 + b) by lia.
  rewrite Zplus_mod_idemp_l. f_equal. lia.
Qed.

Lemma wrap_add_r a b : GoInt.wrap (a + GoInt.wrap b) = GoInt.wrap (a + b).
Proof. rewrite (Z.add_comm a), wrap_add_l. f_equal. lia. Qed.

Lemma wrap_wrap z : GoInt.wrap (GoInt.wrap z) = GoInt.wrap z.
Proof. apply wrap_id, wrap_in_range. Qed.

Lemma sum_from_wrap total l :
  GoInt.wrap (GoInt.sum_from total l) = GoInt.wrap (total + GoInt.sumZ l).
Proof.
  revert total. induction l as [|x l IH]; intros total; simpl.
  - f_equal. lia.
  - unfold GoInt.sum_from in IH. rewrite IH. unfold GoInt.add.
    rewrite wrap_add_l. f_equal. lia.
Qed.

Lemma sum_from_in_range total l :
  GoInt.in_range total → GoInt.in_range (GoInt.sum_from total l).
Proof.
  revert total. induction l as [|x l IH]; intros total Ht; simpl; [done|].
  apply IH, wrap_in_range.
Qed.

(** The loop sum is the mathematical sum reduced to 64 bits. *)
Lemma sum_from_0 l : GoInt.sum_from 0 l = GoInt.wrap (GoInt.sumZ l).
Proof.
  rewrite <- (wrap_id (GoInt.sum_from 0 l)).
  - rewrite sum_from_wrap. done.
  - apply sum_from_in_range. unfold GoInt.in_range, GoInt.min_int, GoInt.max_int. lia.
Qed.

Lemma sumZ_app l1 l2 : GoInt.sumZ (l1 ++ l2) = GoInt.sumZ l1 + GoInt.sumZ l2.
Proof. induction l1 as [|x l1 IH]; simpl; [done|]. rewrite IH. lia. Qed.

Lemma sumZ_nonneg l : Forall (λ x, 0 ≤ x) l → 0 ≤ GoInt.sumZ l.
Proof. induction 1; simpl; lia. Qed.

Lemma sumZ_zeros (l : list Z) : Forall (λ x, x = 0) l → GoInt.sumZ l = 0.
Proof. induction 1; simpl; lia. Qed.

(** ** The comparator and sortedness *)

Lemma trailing_last (a : list Row) i : trailing a i = a !! i ≫= last.
Proof.
  unfold trailing. destruct (a !! i) as [r|]; simpl; [|done].
  destruct r as [|c r]; [done|]. rewrite last_lookup. simpl. by rewrite Nat.sub_0_r.
Qed.

Lemma Less_rows (a : list Row) i j ri rj :
  a !! i = Some ri → a !! j = Some rj → Less a i j = less_rows ri rj.
Proof.
  intros Hi Hj. unfold Less, less_rows. rewrite !trailing_last, Hi, Hj. done.
Qed.

Lemma IsSorted_from_spec (a : list Row) n :
  IsSorted_from a n = Some true ↔
  ∀ i, (i < n)%nat → Less a (S i) i = Some false.
Proof.
  induction n as [|n IH]; simpl.
  - split; [intros _ i Hi; lia | done].
  - split.
    + intros H i Hi. destruct (Less a (S n) n) as [[]|] eqn:E; simpl in H; try done.
      destruct (decide (i = n)) as [->|]; [done|]. apply IH; [done | lia].
    + intros H. rewrite (H n) by lia. simpl. apply IH. intros i Hi. apply H. lia.
Qed.

Lemma IsSorted_spec (a : list Row) :
  IsSorted a = Some true ↔
  ∀ i, (S i < length a)%nat → Less a (S i) i = Some false.
Proof.
  unfold IsSorted, Len. rewrite IsSorted_from_spec. split; intros H i Hi; apply H; lia.
Qed.

(** A row whose trailing cell is not an [int] can only stand first in a
    sorted table. *)
Lemma IsSorted_non_int_first (a : list Row) k r c :
  IsSorted a = Some true → a !! k = Some r → last r = Some c →
  assert_int c = None → k = 0%nat.
Proof.
  intros Hs Hk Hc Hn. destruct k as [|k]; [done|]. exfalso.
  assert (Less a (S k) k = Some false) as HL.
  { apply IsSorted_spec; [done|]. by apply lookup_lt_Some in Hk. }
  unfold Less in HL. rewrite (trailing_last a (S k)), Hk in HL. simpl in HL.
  rewrite Hc in HL. simpl in HL. by rewrite Hn in HL.
Qed.

(** From the second row on, a sorted table has [int] trailing cells, and
    they never increase. *)
Lemma IsSorted_tail_ints (a : list Row) k r :
  IsSorted a = Some true → a !! S k = Some r → ∃ x, last r = Some (CInt x).
Proof.
  intros Hs Hk.
  assert (Less a (S k) k = Some false) as HL.
  { apply IsSorted_spec; [done|]. by apply lookup_lt_Some in Hk. }
  unfold Less in HL. rewrite (trailing_last a (S k)), Hk in HL. simpl in HL.
  destruct (last r) as [[| |x]|]; simpl in HL; try done. by exists x.
Qed.



(** ** The grouping loop of [main] *)

Lemma group_character_dom m c :
  dom (group_character m c) = {[Player c]} ∪ dom m.
Proof.
  unfold group_character. destruct (m !! Player c); by rewrite dom_insert_L.
Qed.

Lemma group_from_dom m l :
  dom (foldl group_character m l) = list_to_set (Player <$> l) ∪ dom m.
Proof.
  revert m. induction l as [|c l IH]; intros m; simpl.
  - set_solver.
  - rewrite IH, group_character_dom. set_solver.
Qed.

(** The players of the map are the players of the records. *)
Lemma group_by_player_dom l :
  dom (group_by_player l) = list_to_set (Player <$> l).
Proof. unfold group_by_player. rewrite group_from_dom. set_solver. Qed.

Lemma group_from_lookup m l p :
  foldl group_character m l !! p =
  match m !! p, filter (λ c, Player c = p) l with
  | None, [] => None
  | o, cs => Some (default [] o ++ cs)
  end.
Proof.
  revert m. induction l as [|c l IH]; intros m; simpl.
  - destruct (m !! p); simpl; [by rewrite app_nil_r | done].
  - rewrite IH. unfold group_character at 1. rewrite filter_cons.
    destruct (decide (Player c = p)) as [<-|Hne].
    + destruct (m !! Player c) as [cs|] eqn:E; rewrite lookup_insert_eq; simpl.
      * by rewrite <- app_assoc.
      * done.
    + destruct (m !! Player c) as [cs|] eqn:E; by rewrite lookup_insert_ne.
Qed.

(** Every record is in its player's sequence, in the original order. *)
Lemma group_by_player_lookup l p :
  group_by_player l !! p =
  match filter (λ c, Player c = p) l with
  | [] => None
  | cs => Some cs
  end.
Proof.
  unfold group_by_player. rewrite group_from_lookup, lookup_empty. done.
Qed.

(** ** The aggregation loop *)

Lemma team_player_step_lookup team m q cs p :
  team_player_step team m (q, cs) !! p =
  if decide (p = q) then Some (default [] (m !! q) ++ [teamTotalPower team cs])
  else m !! p.
Proof.
  unfold team_player_step. case_decide as Hp.
  - subst p. rewrite lookup_insert_eq. destruct (m !! q) eqn:E.
    + by rewrite E.
    + by rewrite lookup_insert_eq.
  - rewrite lookup_insert_ne by done.
    destruct (m !! q); [done|]. by rewrite lookup_insert_ne.
Qed.

Lemma team_loop_lookup team (entries : list (string * MSFPlayerCharacters)) m p :
  NoDup entries.*1 →
  foldl (team_player_step team) m entries !! p =
  match (list_to_map entries : gmap string MSFPlayerCharacters) !! p with
  | Some cs => Some (default [] (m !! p) ++ [teamTotalPower team cs])
  | None => m !! p
  end.
Proof.
  revert m. induction entries as [|[q cs] entries IH]; intros m Hnd.
  - simpl. by rewrite lookup_empty.
  - rewrite fmap_cons in Hnd. apply NoDup_cons in Hnd as [Hq Hnd].
    cbn [foldl]. rewrite list_to_map_cons, IH by done.
    rewrite team_player_step_lookup.
    destruct (decide (p = q)) as [->|Hne].
    + rewrite lookup_insert_eq.
      by rewrite (not_elem_of_list_to_map_1 entries q Hq).
    + by rewrite lookup_insert_ne.
Qed.

(** One pass over the map does not depend on the order in which [range]
    visits its entries. *)
Lemma team_loop_order team (entries entries' : list (string * MSFPlayerCharacters)) m :
  NoDup entries.*1 → entries ≡ₚ entries' →
  foldl (team_player_step team) m entries = foldl (team_player_step team) m entries'.
Proof.
  intros Hnd Hp. apply map_eq. intros p.
  rewrite !team_loop_lookup; [| by rewrite <- Hp | done].
  by rewrite (list_to_map_proper entries entries' Hnd Hp).
Qed.

Lemma playerTeamsMap_loop_lookup (entries : list (string * MSFPlayerCharacters)) teams p :
  NoDup entries.*1 →
  playerTeamsMap_loop entries teams !! p =
  match teams, (list_to_map entries : gmap string MSFPlayerCharacters) !! p with
  | _ :: _, Some cs => Some (team_totals teams cs)
  | _, _ => None
  end.
Proof.
  intros Hnd. unfold playerTeamsMap_loop.
  induction teams as [|team teams IH] using rev_ind.
  - simpl. by rewrite lookup_empty.
  - rewrite foldl_snoc, team_loop_lookup by done. rewrite IH.
    destruct (list_to_map entries !! p) as [cs|] eqn:E, teams as [|team' teams];
      simpl; try done.
    unfold team_totals. by rewrite fmap_app.
Qed.

(** [playerTeamsMap] after the team loop: every player of the input map
    has one total per team, unless there is no team at all. *)
Lemma playerTeamsMap_of_lookup pcm teams p :
  playerTeamsMap_of pcm teams !! p =
  match teams with
  | [] => None
  | _ => team_totals teams <$> pcm !! p
  end.
Proof.
  unfold playerTeamsMap_of.
  rewrite playerTeamsMap_loop_lookup by apply NoDup_fst_map_to_list.
  rewrite list_to_map_to_list. destruct teams, (pcm !! p); done.
Qed.

Lemma playerTeamsMap_of_cons pcm team teams :
  playerTeamsMap_of pcm (team :: teams) = team_totals (team :: teams) <$> pcm.
Proof.
  apply map_eq. intros p. by rewrite playerTeamsMap_of_lookup, lookup_fmap.
Qed.

(** The team loop gives the same map when every pass over the players
    visits them in an order of its own. *)
Lemma playerTeamsMap_any_order pcm
    (visits : list (MSFTeam * list (string * MSFPlayerCharacters))) :
  Forall (λ visit, visit.2 ≡ₚ map_to_list pcm) visits →
  foldl (λ playerTeamsMap visit,
           foldl (team_player_step visit.1) playerTeamsMap visit.2)
    ∅ visits =
  playerTeamsMap_of pcm visits.*1.
Proof.
  unfold playerTeamsMap_of, playerTeamsMap_loop. generalize (∅ : gmap string (list Z)).
  induction visits as [|[team entries] visits IH]; intros m Hvisits; [done|].
  apply Forall_cons in Hvisits as [Hentries Hvisits]. simpl in Hentries.
  rewrite fmap_cons. cbn [foldl fst snd]. rewrite IH by done. f_equal.
  apply team_loop_order; [|done].
  rewrite Hentries. apply NoDup_fst_map_to_list.
Qed.

Lemma playerTeamsMap_of_nil pcm : playerTeamsMap_of pcm [] = ∅.
Proof. apply map_eq. intros p. by rewrite playerTeamsMap_of_lookup, lookup_empty. Qed.

(** ** [sort.Strings] *)

Lemma sort_Strings_sorted l : StronglySorted String.le (sort_Strings l).
Proof. apply StronglySorted_merge_sort; apply _. Qed.

Lemma sort_Strings_perm l : sort_Strings l ≡ₚ l.
Proof. apply merge_sort_Permutation. Qed.

(** The sorted slice is the same whatever the order of the keys before. *)
Lemma sort_Strings_order l l' : l ≡ₚ l' → sort_Strings l = sort_Strings l'.
Proof.
  intros Hp. apply (StronglySorted_unique String.le); try apply sort_Strings_sorted.
  by rewrite !sort_Strings_perm.
Qed.

Lemma playerKeys_of_elem pcm p : p ∈ playerKeys_of pcm ↔ is_Some (pcm !! p).
Proof.
  unfold playerKeys_of. rewrite sort_Strings_perm, list_elem_of_fmap. split.
  - intros [[q cs] [-> H]]. apply elem_of_map_to_list in H. by exists cs.
  - intros [cs H]. exists (p, cs). split; [done|]. by apply elem_of_map_to_list.
Qed.

Lemma playerKeys_of_length pcm : length (playerKeys_of pcm) = size pcm.
Proof.
  unfold playerKeys_of. by rewrite sort_Strings_perm, length_fmap, length_map_to_list.
Qed.

Lemma playerKeys_of_fmap {B} (f : MSFPlayerCharacters → B) pcm :
  sort_Strings (map_to_list (f <$> pcm)).*1 = playerKeys_of pcm.
Proof.
  apply sort_Strings_order. rewrite map_to_list_fmap, <- list_fmap_compose.
  erewrite list_fmap_ext; [done|]. by intros i [q cs].
Qed.

(** ** The column loop *)

Lemma partial_row_0 columns (r : Row) :
  partial_row columns 0 r = replicate columns CNil.
Proof. unfold partial_row. by rewrite take_0, Nat.sub_0_r. Qed.

Lemma partial_row_full (r : Row) : partial_row (length r) (length r) r = r.
Proof.
  unfold partial_row. by rewrite firstn_all, Nat.sub_diag, app_nil_r.
Qed.

Lemma partial_row_length columns c (r : Row) :
  (c ≤ columns)%nat → length r = columns →
  length (partial_row columns c r) = columns.
Proof.
  intros Hc Hr. unfold partial_row.
  rewrite length_app, length_take, length_replicate. lia.
Qed.

Lemma partial_row_step columns c (r : Row) v :
  length r = columns → r !! c = Some v →
  <[c := v]> (partial_row columns c r) = partial_row columns (S c) r.
Proof.
  intros Hr Hv. pose proof (lookup_lt_Some _ _ _ Hv) as Hc.
  unfold partial_row. rewrite (take_S_r r c v Hv).
  replace (columns - c)%nat with (S (columns - S c)) by lia.
  rewrite insert_app_r_alt; rewrite length_take; [|lia].
  replace (c - c `min` length r)%nat with 0%nat by lia.
  simpl. by rewrite <- app_assoc.
Qed.

Lemma set_cell_middle (hdr : Row) (A B : list Row) (r : Row) c v :
  (c < length r)%nat →
  set_cell (hdr :: A ++ r :: B) (length A + 1) c v =
  Some (hdr :: A ++ <[c := v]> r :: B).
Proof.
  intros Hc. unfold set_cell. rewrite Nat.add_1_r. simpl.
  rewrite list_lookup_middle by done. simpl.
  rewrite decide_True by done. do 2 f_equal.
  rewrite insert_app_r_alt by lia. by rewrite Nat.sub_diag.
Qed.

Lemma player_row_length p (totals : list Z) :
  length (player_row p totals) = (length totals + 2)%nat.
Proof. unfold player_row. simpl. rewrite length_app, length_fmap. simpl. lia. Qed.

Lemma header_row_length teams : length (header_row teams) = (length teams + 2)%nat.
Proof.
  unfold header_row. rewrite !length_app, length_fmap. simpl. lia.
Qed.

(** The cell the loop body writes at column [c] is cell [c] of the
    player's row. *)
Lemma fill_cell_value ptm p (totals : list Z) c cv k :
  ptm !! p = Some totals → totals ≠ [] → (c < length totals + 2)%nat →
  ∃ v, player_row p totals !! c = Some v ∧
       fill_cell ptm (length totals + 2) c cv (k, p) = set_cell cv (k + 1) c v.
Proof.
  intros Hp Hne Hc. unfold fill_cell. rewrite Hp. simpl.
  destruct (decide (c = 0%nat)) as [->|H0].
  { by exists (CString p). }
  destruct (decide (c = (length totals + 2 - 1)%nat)) as [->|Hl].
  - exists (CInt (average_of totals)). split.
    + unfold player_row. replace (length totals + 2 - 1)%nat with (S (length totals)) by lia.
      simpl. rewrite lookup_app_r; rewrite length_fmap; [|done].
      by rewrite Nat.sub_diag.
    + unfold GoInt.div. rewrite decide_False; [done|].
      destruct totals; [done|]. simpl. lia.
  - destruct (lookup_lt_is_Some_2 totals (c - 1)) as [t Ht]; [lia|].
    exists (CInt t). rewrite Ht. simpl. split; [|done].
    unfold player_row. destruct c as [|c]; [done|]. simpl.
    replace (S c - 1)%nat with c in Ht by lia.
    rewrite lookup_app_l by (rewrite length_fmap; lia).
    by rewrite list_lookup_fmap, Ht.
Qed.

Section fill.

Variable ptm : gmap string (list Z).
Variable columns : nat.
Variable hdr : Row.

Local Abbreviation full := (full_row ptm).
Local Abbreviation filled := (filled_rows ptm columns).
Local Abbreviation ready := (rows_ready ptm columns).

(** One pass of the inner loop writes column [c] of every player row. *)
Lemma fill_column c (pre post : list string) :
  ready post → (c < columns)%nat →
  for_range (fill_cell ptm columns c)
    (hdr :: filled (S c) pre ++ filled c post)
    (zip (seq (length pre) (length post)) post) =
  Some (hdr :: filled (S c) (pre ++ post)).
Proof.
  revert pre. induction post as [|p post IH]; intros pre Hready Hc.
  - simpl. by rewrite !app_nil_r.
  - destruct (Hready p) as (totals & Hp & Hne & Hlen); [by left|].
    cbn [length seq zip zip_with for_range].
    destruct (fill_cell_value ptm p totals c
                (hdr :: filled (S c) pre ++ filled c (p :: post)) (length pre)
                Hp Hne ltac:(lia)) as (v & Hv & Hfill).
    rewrite Hlen in Hfill. rewrite Hfill.
    assert (full p = player_row p totals) as Hfull.
    { unfold full_row. by rewrite Hp. }
    unfold filled_rows at 2. rewrite fmap_cons. fold (filled c post).
    replace (length pre) with (length (filled (S c) pre)) at 1
      by (unfold filled_rows; by rewrite length_fmap).
    rewrite set_cell_middle.
    2:{ rewrite partial_row_length; [done | lia |].
        rewrite Hfull, player_row_length. lia. }
    simpl. rewrite partial_row_step.
    2:{ rewrite Hfull, player_row_length. lia. }
    2:{ by rewrite Hfull. }
    assert (filled (S c) (pre ++ [p]) =
            filled (S c) pre ++ [partial_row columns (S c) (full p)]) as Hsnoc.
    { unfold filled_rows. by rewrite fmap_app. }
    specialize (IH (pre ++ [p])).
    rewrite Hsnoc, length_app, <- !app_assoc in IH. cbn [length app] in IH.
    rewrite Nat.add_1_r in IH.
    apply IH; [| done]. intros q Hq. apply Hready. by right.
Qed.

(** The column loop, started at column [c] with the columns before it
    written, completes every row. *)
Lemma fill_columns keys n c :
  ready keys → (c + n)%nat = columns →
  for_range
    (λ cv columnIndex,
       for_range (fill_cell ptm columns columnIndex) cv
         (zip (seq 0 (length keys)) keys))
    (hdr :: filled c keys) (seq c n) =
  Some (hdr :: (full <$> keys)).
Proof.
  intros Hready. revert c. induction n as [|n IH]; intros c Hc.
  - simpl. do 2 f_equal. unfold filled_rows. apply Forall_fmap_ext_1, Forall_forall.
    intros p Hp. destruct (Hready p Hp) as (totals & Hpt & _ & Hlen).
    assert (length (full p) = columns) as Hfl.
    { unfold full_row. rewrite Hpt. change (default [] (Some totals)) with totals.
      rewrite player_row_length. lia. }
    assert (c = columns) as -> by lia. rewrite <- Hfl. apply partial_row_full.
  - cbn [seq for_range].
    pose proof (fill_column c [] keys Hready ltac:(lia)) as Hcol.
    simpl in Hcol. rewrite Hcol. simpl. apply IH. lia.
Qed.

End fill.

(** ** The table before the ranking sort *)

Lemma initial_cellValues_eq players teams :
  initial_cellValues players teams =
  header_row teams :: replicate players (replicate (length teams + 2) CNil).
Proof. unfold initial_cellValues. by rewrite Nat.add_1_r. Qed.

(** The loops of [generateAverageTeamPowerByPlayerReport] never panic and
    build the header followed by one row per player, in ascending order of
    the player keys. *)
Lemma build_cellValues_table pcm teams :
  build_cellValues pcm teams = Some (table_of pcm teams).
Proof.
  unfold build_cellValues, table_of, player_rows.
  rewrite initial_cellValues_eq. cbn [lookup list_lookup mbind option_bind].
  rewrite header_row_length.
  destruct teams as [|team teams].
  - rewrite playerTeamsMap_of_nil, map_to_list_empty. reflexivity.
  - rewrite playerTeamsMap_of_cons. set (ts := team :: teams).
    rewrite playerKeys_of_fmap, map_size_fmap, <- playerKeys_of_length.
    set (keys := playerKeys_of pcm).
    set (ptm := team_totals ts <$> pcm).
    assert (rows_ready ptm (length ts + 2) keys) as Hready.
    { intros p [cs Hp]%playerKeys_of_elem. exists (team_totals ts cs).
      unfold ptm. rewrite lookup_fmap, Hp. split; [done|].
      unfold team_totals. rewrite length_fmap. by split. }
    pose proof (fill_columns ptm (length ts + 2) (header_row ts) keys
                  (length ts + 2) 0 Hready eq_refl) as Hfill.
    assert (filled_rows ptm (length ts + 2) 0 keys =
            replicate (length keys) (replicate (length ts + 2) CNil)) as Hinit.
    { clear. unfold filled_rows. induction keys as [|p keys IH]; [done|].
      rewrite fmap_cons, IH, partial_row_0. done. }
    rewrite Hinit in Hfill. rewrite Hfill. do 2 f_equal.
    apply Forall_fmap_ext_1, Forall_forall.
    intros p [cs Hp]%playerKeys_of_elem.
    unfold full_row, ptm. by rewrite lookup_fmap, Hp.
Qed.

(** ** Outcomes of the ranking sort *)

Global Instance ranks_before_total : Total ranks_before.
Proof. intros r1 r2. unfold ranks_before. lia. Qed.

Global Instance ranks_before_trans : Transitive ranks_before.
Proof. intros r1 r2 r3. unfold ranks_before. lia. Qed.

Lemma int_row_not_non_int r : int_row r → ¬ non_int_row r.
Proof. intros [x Hx] (c & Hc & Hn). rewrite Hx in Hc. by simplify_eq. Qed.

Lemma less_rows_int_int r1 r2 :
  int_row r1 → int_row r2 →
  less_rows r1 r2 = Some (bool_decide (trailing_int r1 > trailing_int r2)).
Proof.
  intros [x Hx] [y Hy]. unfold less_rows, trailing_int. by rewrite Hx, Hy.
Qed.

Lemma less_rows_non_int r1 r2 : non_int_row r1 → less_rows r1 r2 = Some true.
Proof. intros (c & Hc & Hn). unfold less_rows. rewrite Hc. simpl. by rewrite Hn. Qed.

Lemma less_rows_int_non_int r1 r2 :
  int_row r1 → non_int_row r2 → less_rows r1 r2 = Some false.
Proof.
  intros [x Hx] (c & Hc & Hn). unfold less_rows. rewrite Hx, Hc. simpl.
  by rewrite Hn.
Qed.

Lemma Sorted_lookup_adjacent {A} (R : relation A) (l : list A) i a b :
  Sorted R l → l !! i = Some a → l !! S i = Some b → R a b.
Proof.
  intros Hs. revert i. induction Hs as [|x l Hs IH Hd]; intros i Ha Hb; [done|].
  destruct i as [|i]; simpl in *.
  - simplify_eq. destruct l; simplify_eq/=. by inversion Hd.
  - eauto.
Qed.

Lemma lookup_adjacent_Sorted {A} (R : relation A) (l : list A) :
  (∀ i a b, l !! i = Some a → l !! S i = Some b → R a b) → Sorted R l.
Proof.
  induction l as [|x l IH]; intros H; constructor.
  - apply IH. intros i a b Ha Hb. by apply (H (S i)).
  - destruct l as [|y l]; constructor. by apply (H 0%nat).
Qed.

(** A header without a trailing [int], followed by rows that all have one:
    the table is sorted exactly when the rows are in descending order. *)
Lemma IsSorted_header_rows (header : Row) (rows : list Row) :
  non_int_row header → Forall int_row rows →
  IsSorted (header :: rows) = Some true ↔ Sorted ranks_before rows.
Proof.
  intros Hh Hrows. rewrite IsSorted_spec. split.
  - intros H. apply lookup_adjacent_Sorted. intros i a b Ha Hb.
    assert (Less (header :: rows) (S (S i)) (S i) = Some false) as HL.
    { apply H. simpl. apply lookup_lt_Some in Hb. lia. }
    rewrite (Less_rows _ _ _ b a) in HL by done.
    rewrite less_rows_int_int in HL.
    + injection HL as HL. apply bool_decide_eq_false in HL.
      unfold ranks_before. lia.
    + eapply Forall_lookup_1; eauto.
    + eapply Forall_lookup_1; eauto.
  - intros Hs i Hi. simpl in Hi.
    destruct (lookup_lt_is_Some_2 rows i) as [b Hb]; [lia|].
    assert (int_row b) as Hib by (eapply Forall_lookup_1; eauto).
    destruct i as [|i].
    + rewrite (Less_rows _ _ _ b header) by done.
      by apply less_rows_int_non_int.
    + destruct (lookup_lt_is_Some_2 rows i) as [a Ha]; [lia|].
      rewrite (Less_rows _ _ _ b a) by done.
      rewrite less_rows_int_int; [| done | by eapply Forall_lookup_1; eauto].
      f_equal. apply bool_decide_eq_false.
      pose proof (Sorted_lookup_adjacent ranks_before rows i a b Hs Ha Hb) as HR.
      unfold ranks_before in HR. lia.
Qed.

(** On such a table [Less] never panics and is an ordering [sort.Sort] can
    sort by: between two different rows it is asymmetric, it is
    transitive, and so is being ordered neither way. *)
Lemma table_row_cases (header : Row) (rows : list Row) i r :
  Forall int_row rows → (header :: rows) !! i = Some r →
  (i = 0%nat ∧ r = header) ∨ (i ≠ 0%nat ∧ int_row r).
Proof.
  intros Hrows Hi. destruct i as [|i]; simpl in Hi.
  - left. by simplify_eq.
  - right. split; [done|]. eapply Forall_lookup_1; eauto.
Qed.

Lemma Less_table_defined (header : Row) (rows : list Row) i j :
  non_int_row header → Forall int_row rows →
  (i < S (length rows))%nat → (j < S (length rows))%nat →
  ∃ b, Less (header :: rows) i j = Some b.
Proof.
  intros Hh Hrows Hi Hj.
  destruct (lookup_lt_is_Some_2 (header :: rows) i) as [ri Hri]; [done|].
  destruct (lookup_lt_is_Some_2 (header :: rows) j) as [rj Hrj]; [done|].
  rewrite (Less_rows _ _ _ ri rj Hri Hrj).
  destruct (table_row_cases header rows i ri Hrows Hri) as [[-> ->]|[_ Hii]].
  { exists true. by apply less_rows_non_int. }
  destruct (table_row_cases header rows j rj Hrows Hrj) as [[-> ->]|[_ Hij]].
  { exists false. by apply less_rows_int_non_int. }
  rewrite less_rows_int_int by done. eauto.
Qed.

Lemma Less_table_asymmetric (header : Row) (rows : list Row) i j ri rj :
  non_int_row header → Forall int_row rows → i ≠ j →
  (header :: rows) !! i = Some ri → (header :: rows) !! j = Some rj →
  Less (header :: rows) i j = Some true → Less (header :: rows) j i = Some false.
Proof.
  intros Hh Hrows Hne Hri Hrj HL.
  rewrite (Less_rows _ _ _ ri rj Hri Hrj) in HL.
  rewrite (Less_rows _ _ _ rj ri Hrj Hri).
  destruct (table_row_cases header rows i ri Hrows Hri) as [[-> ->]|[Hi0 Hii]];
    destruct (table_row_cases header rows j rj Hrows Hrj) as [[-> ->]|[Hj0 Hij]].
  - done.
  - by apply less_rows_int_non_int.
  - by rewrite less_rows_int_non_int in HL.
  - rewrite less_rows_int_int in HL |- * by done.
    injection HL as HL. apply bool_decide_eq_true in HL.
    f_equal. apply bool_decide_eq_false. lia.
Qed.

Lemma Less_table_transitive (header : Row) (rows : list Row) i j k ri rj rk :
  non_int_row header → Forall int_row rows →
  (header :: rows) !! i = Some ri → (header :: rows) !! j = Some rj →
  (header :: rows) !! k = Some rk →
  Less (header :: rows) i j = Some true → Less (header :: rows) j k = Some true →
  Less (header :: rows) i k = Some true.
Proof.
  intros Hh Hrows Hri Hrj Hrk Hij Hjk.
  rewrite (Less_rows _ _ _ ri rj Hri Hrj) in Hij.
  rewrite (Less_rows _ _ _ rj rk Hrj Hrk) in Hjk.
  rewrite (Less_rows _ _ _ ri rk Hri Hrk).
  destruct (table_row_cases header rows i ri Hrows Hri) as [[-> ->]|[Hi0 Hii]].
  { by apply less_rows_non_int. }
  destruct (table_row_cases header rows j rj Hrows Hrj) as [[-> ->]|[Hj0 Hjj]].
  { by rewrite less_rows_int_non_int in Hij. }
  destruct (table_row_cases header rows k rk Hrows Hrk) as [[-> ->]|[Hk0 Hkk]].
  { by rewrite less_rows_int_non_int in Hjk. }
  rewrite less_rows_int_int in Hij, Hjk |- * by done.
  injection Hij as Hij. injection Hjk as Hjk.
  apply bool_decide_eq_true in Hij, Hjk. f_equal. apply bool_decide_eq_true. lia.
Qed.

Lemma Less_table_ties_transitive (header : Row) (rows : list Row) i j k ri rj rk :
  non_int_row header → Forall int_row rows →
  (header :: rows) !! i = Some ri → (header :: rows) !! j = Some rj →
  (header :: rows) !! k = Some rk →
  Less (header :: rows) i j = Some false → Less (header :: rows) j i = Some false →
  Less (header :: rows) j k = Some false → Less (header :: rows) k j = Some false →
  Less (header :: rows) i k = Some false ∧ Less (header :: rows) k i = Some false.
Proof.
  intros Hh Hrows Hri Hrj Hrk Hij Hji Hjk Hkj.
  rewrite (Less_rows _ _ _ ri rj Hri Hrj) in Hij.
  rewrite (Less_rows _ _ _ rj ri Hrj Hri) in Hji.
  rewrite (Less_rows _ _ _ rj rk Hrj Hrk) in Hjk.
  rewrite (Less_rows _ _ _ rk rj Hrk Hrj) in Hkj.
  rewrite (Less_rows _ _ _ ri rk Hri Hrk), (Less_rows _ _ _ rk ri Hrk Hri).
  destruct (table_row_cases header rows i ri Hrows Hri) as [[-> ->]|[Hi0 Hii]].
  { by rewrite less_rows_non_int in Hij. }
  destruct (table_row_cases header rows j rj Hrows Hrj) as [[-> ->]|[Hj0 Hjj]].
  { by rewrite less_rows_non_int in Hji. }
  destruct (table_row_cases header rows k rk Hrows Hrk) as [[-> ->]|[Hk0 Hkk]].
  { by rewrite less_rows_non_int in Hkj. }
  rewrite less_rows_int_int in Hij, Hji, Hjk, Hkj |- * by done.
  rewrite less_rows_int_int by done.
  injection Hij as Hij. injection Hji as Hji. injection Hjk as Hjk. injection Hkj as Hkj.
  apply bool_decide_eq_false in Hij, Hji, Hjk, Hkj.
  split; f_equal; apply bool_decide_eq_false; lia.
Qed.

(** The outcomes of [sort.Sort] on such a table: the header stays first and
    the rows behind it are any descending rearrangement. *)
Lemma sort_Sort_header_rows (header : Row) (rows out : list Row) :
  non_int_row header → Forall int_row rows →
  sort_Sort (header :: rows) out ↔
  ∃ rest, out = header :: rest ∧ rows ≡ₚ rest ∧ Sorted ranks_before rest.
Proof.
  intros Hh Hrows. split.
  - intros [Hp Hs].
    assert (header ∈ out) as Hin by (rewrite <- Hp; by left).
    apply list_elem_of_lookup in Hin as [k Hk].
    destruct Hh as (c & Hc & Hn).
    pose proof (IsSorted_non_int_first out k header c Hs Hk Hc Hn) as ->.
    destruct out as [|h rest]; simplify_eq/=.
    apply Permutation_cons_inv in Hp.
    exists rest. split; [done|]. split; [done|].
    apply (IsSorted_header_rows header rest); [by exists c | by rewrite <- Hp | done].
  - intros (rest & -> & Hp & Hs). split.
    + by constructor.
    + apply IsSorted_header_rows; [done | by rewrite <- Hp | done].
Qed.

Lemma stable_outcome_sorted (header : Row) (rows : list Row) :
  non_int_row header → Forall int_row rows →
  sort_Sort (header :: rows) (stable_outcome header rows).
Proof.
  intros Hh Hrows. apply sort_Sort_header_rows; [done..|].
  exists (merge_sort ranks_before rows). split; [done|]. split.
  - by rewrite merge_sort_Permutation.
  - apply Sorted_merge_sort. apply _.
Qed.

(** ** The report as a whole *)

Lemma header_row_last teams : last (header_row teams) = Some (CString "Average").
Proof. unfold header_row. by rewrite last_snoc. Qed.

Lemma header_row_non_int teams : non_int_row (header_row teams).
Proof. exists (CString "Average"). split; [apply header_row_last | done]. Qed.

Lemma player_row_last p totals :
  last (player_row p totals) = Some (CInt (average_of totals)).
Proof.
  unfold player_row. rewrite app_comm_cons. by rewrite last_snoc.
Qed.

Lemma player_row_int p totals : int_row (player_row p totals).
Proof. exists (average_of totals). apply player_row_last. Qed.

(** The letter of column [columns], for at most 26 columns. *)
Lemma rangeAddress_letter columns :
  (1 ≤ columns ≤ 26)%nat →
  sheetCellIndexToLetter !! (columns - 1)%nat =
  Some (column_letter columns).
Proof.
  intros [H1 H26].
  do 27 (destruct columns as [|columns]; [first [lia | reflexivity]|]). lia.
Qed.

Lemma writeRange_of_cons sheetName (header : Row) (rest : list Row) :
  writeRange_of sheetName (header :: rest) =
  rangeAddress sheetName (length header) (S (length rest)).
Proof. reflexivity. Qed.

Lemma player_rows_int pcm teams : Forall int_row (player_rows pcm teams).
Proof.
  unfold player_rows. destruct teams; [constructor|].
  apply Forall_fmap, Forall_forall. intros p _. apply player_row_int.
Qed.

Lemma player_rows_length pcm teams :
  teams ≠ [] → length (player_rows pcm teams) = size pcm.
Proof.
  intros Hne. unfold player_rows. destruct teams; [done|].
  by rewrite length_fmap, playerKeys_of_length.
Qed.

(** What the report function returns: the header, the player rows in some
    descending rearrangement, and the address of that rectangle. *)
Lemma generate_iff pcm teams sheetName result :
  generateAverageTeamPowerByPlayerReport pcm teams sheetName result ↔
  ∃ rest,
    result.2 = header_row teams :: rest ∧
    player_rows pcm teams ≡ₚ rest ∧
    Sorted ranks_before rest ∧
    rangeAddress sheetName (length teams + 2) (S (length rest)) = Some result.1.
Proof.
  unfold generateAverageTeamPowerByPlayerReport. split.
  - intros (cv & Hcv & Hsort & Hrange).
    rewrite build_cellValues_table in Hcv. injection Hcv as <-.
    apply sort_Sort_header_rows in Hsort
      as (rest & Hout & Hp & Hs); [| apply header_row_non_int | apply player_rows_int].
    exists rest. rewrite Hout in Hrange |- *. repeat split; try done.
    by rewrite writeRange_of_cons, header_row_length in Hrange.
  - intros (rest & Hout & Hp & Hs & Hrange).
    exists (table_of pcm teams). split; [apply build_cellValues_table|]. split.
    + apply sort_Sort_header_rows;
        [apply header_row_non_int | apply player_rows_int |]. by exists rest.
    + by rewrite Hout, writeRange_of_cons, header_row_length.
Qed.

(** With at most 24 teams the function returns. *)
Lemma generate_total pcm teams sheetName :
  (length teams + 2 ≤ 26)%nat →
  ∃ result, generateAverageTeamPowerByPlayerReport pcm teams sheetName result.
Proof.
  intros Hlen.
  destruct (rangeAddress sheetName (length teams + 2)
              (S (length (merge_sort ranks_before (player_rows pcm teams)))))
    as [writeRange|] eqn:E.
  - exists (writeRange, header_row teams :: merge_sort ranks_before (player_rows pcm teams)).
    apply generate_iff. eexists. split; [done|]. split.
    + by rewrite merge_sort_Permutation.
    + split; [|done]. apply Sorted_merge_sort. apply _.
  - exfalso. unfold rangeAddress in E.
    replace (length teams + 2)%nat with (S (length teams + 1)) in E by lia.
    pose proof (rangeAddress_letter (length teams + 2) ltac:(lia)) as Hl.
    replace (length teams + 2 - 1)%nat with (length teams + 1)%nat in Hl by lia.
    rewrite Hl in E. done.
Qed.

(** ** Running the report on a concrete input *)

(** C10. The header row is row 0 of the slice handed to [sort.Sort]; its
    trailing cell is the string "Average", which is not an [int]; [Less]
    puts it before every other row and none of them before it; and in
    every table the function returns the header is still row 0, every
    other row having an [int] trailing cell. *)
Theorem header_stays_first pcm teams sheetName result :
  generateAverageTeamPowerByPlayerReport pcm teams sheetName result →
  (∃ cellValues,
     build_cellValues pcm teams = Some cellValues ∧
     cellValues !! 0%nat = Some (header_row teams) ∧
     sort_Sort cellValues result.2) ∧
  last (header_row teams) = Some (CString "Average") ∧
  assert_int (CString "Average") = None ∧
  result.2 !! 0%nat = Some (header_row teams) ∧
  (∀ k r, result.2 !! k = Some r → non_int_row r → k = 0%nat) ∧
  (∀ k r, result.2 !! S k = Some r →
     int_row r ∧
     Less result.2 0 (S k) = Some true ∧ Less result.2 (S k) 0 = Some false).
Proof.
  intros Hgen. pose proof Hgen as (cv & Hcv & Hsort & _).
  apply generate_iff in Hgen as (rest & Hout & Hp & Hs & _).
  split; [|split; [apply header_row_last | split; [done | split; [|split]]]].
  - exists cv. split; [done|]. split; [|done].
    rewrite build_cellValues_table in Hcv. by injection Hcv as <-.
  - by rewrite Hout.
  - intros k r Hk (c & Hc & Hn).
    eapply IsSorted_non_int_first; [apply Hsort | done..].
  - intros k r Hk.
    assert (int_row r) as Hint by (eapply IsSorted_tail_ints; [apply Hsort | done]).
    split; [done|].
    assert (result.2 !! 0%nat = Some (header_row teams)) as H0 by (by rewrite Hout).
    rewrite (Less_rows result.2 0 (S k) (header_row teams) r H0 Hk),
      (Less_rows result.2 (S k) 0 r (header_row teams) Hk H0).
    split; [apply less_rows_non_int | apply less_rows_int_non_int];
      auto using header_row_non_int.
Qed.


(** C7, as amended. The first row of every table the function returns is
    "Player", then the label of each team in the order of [teams], then
    "Average". *)
Theorem header_is_player_labels_average pcm teams sheetName result :
  generateAverageTeamPowerByPlayerReport pcm teams sheetName result →
  result.2 !! 0%nat =
  Some ((CString "Player" :: (CString ∘ Label <$> teams)) ++ [CString "Average"]).
Proof.
  intros (rest & Hout & _)%generate_iff. by rewrite Hout.
Qed.


(** ** Range addresses *)

(** C8. For 1 to 26 columns the range address is the sheet name, "!A1:",
    the letter of the last column and the decimal row count; it is the
    [writeRange] the report function returns for its table; and a sheet
    "Offense" with 7 columns and 5 rows gives "Offense!A1:G5". *)
Theorem rangeAddress_format sheetName columns rows :
  (1 ≤ columns ≤ 26)%nat →
  rangeAddress sheetName columns rows =
    Some (sheetName +:+ "!A1:" +:+ column_letter columns +:+ Itoa (Z.of_nat rows)) ∧
  (∀ pcm teams result,
     (length teams + 2)%nat = columns →
     generateAverageTeamPowerByPlayerReport pcm teams sheetName result →
     length result.2 = rows →
     result.1 =
       sheetName +:+ "!A1:" +:+ column_letter columns +:+ Itoa (Z.of_nat rows)) ∧
  rangeAddress "Offense" 7 5 = Some "Offense!A1:G5".
Proof.
  intros Hc.
  assert (rangeAddress sheetName columns rows =
          Some (sheetName +:+ "!A1:" +:+ column_letter columns +:+ Itoa (Z.of_nat rows)))
    as Haddr.
  { unfold rangeAddress. destruct columns as [|k]; [lia|].
    pose proof (rangeAddress_letter (S k) Hc) as Hl.
    replace (S k - 1)%nat with k in Hl by lia. by rewrite Hl. }
  split; [done|]. split; [|reflexivity].
  intros pcm teams result Hcols (rest & Hout & _ & _ & Hrange)%generate_iff Hrows.
  rewrite Hout in Hrows. simpl in Hrows.
  rewrite Hcols, Hrows, Haddr in Hrange. by injection Hrange.
Qed.

(** C9. Each of the four report functions calls with at most 11 teams, the
    11 of "Offense" giving 13 columns: never more than 26 columns, so the
    function returns for every map of players, and the index into
    [sheetCellIndexToLetter] is in bounds in every table it returns. *)
Theorem configured_categories_in_bounds sheetName teams :
  (sheetName, teams) ∈ reportCategories →
  (length teams + 2 ≤ 26)%nat ∧
  (length teams ≤ length offenseTeams)%nat ∧
  (length offenseTeams + 2)%nat = 13%nat ∧
  (∀ pcm, ∃ result,
     generateAverageTeamPowerByPlayerReport pcm teams sheetName result) ∧
  (∀ pcm result,
     generateAverageTeamPowerByPlayerReport pcm teams sheetName result →
     ∃ header letter,
       result.2 !! 0%nat = Some header ∧
       (length header ≤ 26)%nat ∧
       sheetCellIndexToLetter !! (length header - 1)%nat = Some letter).
Proof.
  intros Hin.
  assert (length teams + 2 ≤ 26 ∧ length teams ≤ length offenseTeams)%nat
    as [Hlen Hmax].
  { unfold reportCategories in Hin. apply list_elem_of_In in Hin.
    destruct Hin as [E|[E|[E|[E|[]]]]]; injection E as <- <-;
      vm_compute; lia. }
  split; [done|]. split; [done|]. split; [reflexivity|]. split.
  - intros pcm. by apply generate_total.
  - intros pcm result (rest & Hout & _)%generate_iff.
    exists (header_row teams), (column_letter (length teams + 2)).
    rewrite Hout, header_row_length. split; [done|]. split; [done|].
    apply rangeAddress_letter. lia.
Qed.

(** ** Player rows *)

Lemma quot_in_range s n : GoInt.in_range s → 0 < n → GoInt.in_range (s `quot` n).
Proof.
  unfold GoInt.in_range, GoInt.min_int, GoInt.max_int. intros Hs Hn.
  destruct (Z_le_gt_dec 0 s) as [Hpos|Hneg].
  - rewrite Z.quot_div_nonneg by lia.
    pose proof (Z.div_pos s n Hpos Hn).
    pose proof (Z.div_le_upper_bound s n s Hn ltac:(nia)). lia.
  - replace s with (- - s) by lia. rewrite Z.quot_opp_l by lia.
    rewrite Z.quot_div_nonneg by lia.
    pose proof (Z.div_pos (- s) n ltac:(lia) Hn).
    pose proof (Z.div_le_upper_bound (- s) n (- s) Hn ltac:(nia)). lia.
Qed.

Lemma zero_in_range : GoInt.in_range 0.
Proof. unfold GoInt.in_range, GoInt.min_int, GoInt.max_int. lia. Qed.

(** The average cell: the loop sum of the totals, divided with truncation
    toward zero. *)
Lemma average_of_quot totals :
  totals ≠ [] →
  average_of totals = GoInt.sum_from 0 totals `quot` Z.of_nat (length totals).
Proof.
  intros Hne. unfold average_of. apply wrap_id, quot_in_range.
  - apply sum_from_in_range, zero_in_range.
  - destruct totals; [done|]. simpl. lia.
Qed.

Lemma filter_none {A} (P : A → Prop) `{∀ x, Decision (P x)} (l : list A) :
  (∀ x, x ∈ l → ¬ P x) → filter P l = [].
Proof.
  induction l as [|x l IH]; intros Hnone; [done|].
  rewrite filter_cons, decide_False by (apply Hnone; by left).
  apply IH. intros y Hy. apply Hnone. by right.
Qed.

Lemma team_totals_length teams cs : length (team_totals teams cs) = length teams.
Proof. unfold team_totals. by rewrite length_fmap. Qed.

Lemma elem_of_player_rows pcm teams row :
  teams ≠ [] →
  row ∈ player_rows pcm teams ↔
  ∃ player cs, pcm !! player = Some cs ∧
               row = player_row player (team_totals teams cs).
Proof.
  intros Hne. unfold player_rows. destruct teams as [|team teams]; [done|].
  rewrite list_elem_of_fmap. split.
  - intros (p & -> & [cs Hp]%playerKeys_of_elem). exists p, cs. by rewrite Hp.
  - intros (p & cs & Hp & ->). exists p. rewrite Hp. split; [done|].
    apply playerKeys_of_elem. by exists cs.
Qed.

(** The rows behind the header of a returned table are the player rows. *)
Lemma generate_rows pcm teams sheetName result row :
  teams ≠ [] →
  generateAverageTeamPowerByPlayerReport pcm teams sheetName result →
  (∃ k, result.2 !! S k = Some row) ↔
  ∃ player cs, pcm !! player = Some cs ∧
               row = player_row player (team_totals teams cs).
Proof.
  intros Hne (rest & Hout & Hp & _)%generate_iff.
  rewrite <- elem_of_player_rows by done. rewrite Hp, Hout.
  by rewrite list_elem_of_lookup.
Qed.

(** The inner loop adds the power of the characters that lower-case to
    [teamCharacter]. *)
Lemma character_loop_sum teamCharacter total cs :
  foldl (λ total character,
      if decide (ToLower (ID character) = teamCharacter)
      then GoInt.add total (Power character) else total)
    total cs =
  GoInt.sum_from total
    (Power <$> filter (λ character, ToLower (ID character) = teamCharacter) cs).
Proof.
  revert total. induction cs as [|c cs IH]; intros total; [done|].
  rewrite filter_cons. cbn [foldl]. rewrite IH.
  destruct (decide (ToLower (ID c) = teamCharacter)); done.
Qed.

Lemma sum_from_app total l1 l2 :
  GoInt.sum_from total (l1 ++ l2) = GoInt.sum_from (GoInt.sum_from total l1) l2.
Proof. apply foldl_app. Qed.

(** The two loops of [teamTotalPower]: one addition for every pair of a
    member of the team and a character that lower-cases to it. *)
Lemma teamTotalPower_matches team cs :
  teamTotalPower team cs = GoInt.sum_from 0 (Power <$> matches team cs).
Proof.
  unfold teamTotalPower, matches. generalize 0.
  induction (Characters team) as [|m ms IH]; intros total; [done|].
  cbn [foldl]. rewrite IH, character_loop_sum, bind_cons, fmap_app, sum_from_app.
  done.
Qed.

Lemma teamTotalPower_no_match team cs :
  (∀ c, c ∈ cs → ToLower (ID c) ∉ Characters team) →
  teamTotalPower team cs = 0.
Proof.
  intros Hnone. rewrite teamTotalPower_matches.
  assert (matches team cs = []) as ->; [|done].
  unfold matches. induction (Characters team) as [|m ms IH] in Hnone |- *; [done|].
  rewrite bind_cons, IH.
  - rewrite app_nil_r. apply filter_none. intros c Hc Heq.
    apply (Hnone c Hc). rewrite Heq. by left.
  - intros c Hc Hin. apply (Hnone c Hc). by right.
Qed.

(** C3, as amended. With at least one team, an owner row of a returned
    table is the player, one total per team and the average, and the
    average is the sum of the totals of that row, added as the loop adds
    them in 64-bit arithmetic, divided by the number of teams with
    truncation toward zero; for a non-negative sum that is the floor of
    the quotient, and it is the floor of the mathematical sum over the
    number of teams when the totals are non-negative and their sum fits an
    [int]. *)
Theorem average_is_truncated_mean pcm teams sheetName result k row :
  (1 ≤ length teams)%nat →
  generateAverageTeamPowerByPlayerReport pcm teams sheetName result →
  result.2 !! S k = Some row →
  ∃ player totals average,
    row = CString player :: (CInt <$> totals) ++ [CInt average] ∧
    length totals = length teams ∧
    last row = Some (CInt average) ∧
    average = GoInt.sum_from 0 totals `quot` Z.of_nat (length teams) ∧
    (0 ≤ GoInt.sum_from 0 totals →
     average = GoInt.sum_from 0 totals `div` Z.of_nat (length teams)) ∧
    (Forall (λ t, 0 ≤ t) totals → GoInt.sumZ totals ≤ GoInt.max_int →
     average = spec_average totals).
Proof.
  intros Hlen Hgen Hrow.
  assert (teams ≠ []) as Hne by (destruct teams; [simpl in Hlen; lia | done]).
  destruct (proj1 (generate_rows pcm teams sheetName result row Hne Hgen))
    as (player & cs & Hp & ->); [by exists k|].
  set (totals := team_totals teams cs).
  assert (length totals = length teams) as Hl by apply team_totals_length.
  assert (totals ≠ []) as Hne' by (destruct totals; [simpl in Hl; lia | done]).
  assert (average_of totals =
          GoInt.sum_from 0 totals `quot` Z.of_nat (length teams)) as Havg.
  { rewrite <- Hl. by apply average_of_quot. }
  exists player, totals, (average_of totals).
  split; [done|]. split; [done|]. split; [apply player_row_last|].
  split; [done|]. split.
  - intros Hpos. rewrite Havg. apply Z.quot_div_nonneg; lia.
  - intros Hnonneg Hfit. rewrite Havg. unfold spec_average. rewrite Hl.
    assert (GoInt.sum_from 0 totals = GoInt.sumZ totals) as ->.
    { rewrite sum_from_0. apply wrap_id.
      pose proof (sumZ_nonneg totals Hnonneg).
      unfold GoInt.in_range, GoInt.min_int in *. lia. }
    apply Z.quot_div_nonneg; [by apply sumZ_nonneg | lia].
Qed.

(** C4. With at least one team, every row of a returned table has one
    cell for the player, one per team and one for the average; the table
    has the header and one row per player of the map, which for the map
    [main] builds is one row per distinct [Player] of the records; and a
    player none of whose characters matches a member of any team has the
    row of zeros. *)
Theorem table_shape pcm teams sheetName result :
  (1 ≤ length teams)%nat →
  generateAverageTeamPowerByPlayerReport pcm teams sheetName result →
  Forall (λ row : Row, length row = (length teams + 2)%nat) result.2 ∧
  length result.2 = (size pcm + 1)%nat ∧
  (∀ records, pcm = group_by_player records →
     length result.2 =
     (size (list_to_set (Player <$> records) : gset string) + 1)%nat) ∧
  (∀ player cs, pcm !! player = Some cs →
     ∃ k row, result.2 !! S k = Some row ∧ row !! 0%nat = Some (CString player)) ∧
  (∀ player cs, pcm !! player = Some cs →
     (∀ c team, c ∈ cs → team ∈ teams → ToLower (ID c) ∉ Characters team) →
     ∃ k, result.2 !! S k =
          Some (CString player :: replicate (length teams) (CInt 0) ++ [CInt 0])).
Proof.
  intros Hlen Hgen.
  assert (teams ≠ []) as Hne by (destruct teams; [simpl in Hlen; lia | done]).
  pose proof Hgen as (rest & Hout & Hp & _)%generate_iff.
  assert (length result.2 = (size pcm + 1)%nat) as Hrows.
  { rewrite Hout. simpl. rewrite <- Hp, player_rows_length by done. lia. }
  split; [|split; [done|split; [|split]]].
  - rewrite Hout. constructor; [apply header_row_length|].
    rewrite <- Hp. apply Forall_forall. intros row Hrow.
    apply elem_of_player_rows in Hrow as (p & cs & _ & ->); [|done].
    by rewrite player_row_length, team_totals_length.
  - intros records ->. rewrite Hrows, <- group_by_player_dom. by rewrite size_dom.
  - intros player cs Hpl.
    destruct (proj2 (generate_rows pcm teams sheetName result
                       (player_row player (team_totals teams cs)) Hne Hgen))
      as [k Hk]; [by exists player, cs|].
    by exists k, (player_row player (team_totals teams cs)).
  - intros player cs Hpl Hnone.
    destruct (proj2 (generate_rows pcm teams sheetName result
                       (player_row player (team_totals teams cs)) Hne Hgen))
      as [k Hk]; [by exists player, cs|].
    exists k. rewrite Hk. f_equal.
    assert (team_totals teams cs = replicate (length teams) 0) as Hzero.
    { unfold team_totals. clear -Hnone.
      induction teams as [|team teams IH]; [done|].
      rewrite fmap_cons. simpl. f_equal.
      - apply teamTotalPower_no_match. intros c Hc. apply Hnone; [done | by left].
      - apply IH. intros c t Hc Ht. apply Hnone; [done | by right]. }
    unfold player_row. rewrite Hzero, fmap_replicate. do 3 f_equal.
    rewrite average_of_quot.
    + rewrite sum_from_0, sumZ_zeros; [done|]. by apply Forall_replicate.
    + destruct teams; [done | discriminate].
Qed.

(** ** Matching characters against a team *)

Lemma sumZ_matches_once {A} (f : A → string) (power : A → Z) (ms : list string)
    (cs : list A) :
  NoDup ms →
  GoInt.sumZ (power <$> (m ← ms; filter (λ c, f c = m) cs)) =
  GoInt.sumZ (power <$> filter (λ c, f c ∈ ms) cs).
Proof.
  induction 1 as [|m ms Hm Hnd IH].
  - simpl. rewrite filter_none; [done|]. intros c _ Hin. by apply not_elem_of_nil in Hin.
  - rewrite bind_cons, fmap_app, sumZ_app, IH. clear IH Hnd.
    induction cs as [|c cs IHcs]; [done|].
    rewrite !filter_cons.
    destruct (decide (f c = m)) as [Heq|Hne].
    + rewrite decide_False by (by rewrite Heq).
      rewrite decide_True by (rewrite Heq; by left).
      rewrite !fmap_cons. simpl. lia.
    + destruct (decide (f c ∈ ms)) as [Hin|Hnin].
      * rewrite decide_True by (by right). rewrite !fmap_cons. simpl. lia.
      * rewrite decide_False; [done|].
        intros [?|?]%elem_of_cons; done.
Qed.

(** When no member is listed twice, the total is the sum over exactly the
    characters that match a member, reduced to 64 bits. *)
Lemma teamTotalPower_NoDup team cs :
  NoDup (Characters team) →
  teamTotalPower team cs = GoInt.wrap (spec_team_total team cs).
Proof.
  intros Hnd. rewrite teamTotalPower_matches. unfold spec_team_total, matches.
  rewrite sum_from_0. f_equal. by apply sumZ_matches_once.
Qed.

(** No team of the four reports lists a member twice, and every member is
    in lower case. *)
Lemma catalog_distinct_lowercase :
  Forall (λ team, NoDup (Characters team) ∧
                  Forall (λ m, ToLower m = m) (Characters team)) catalog.
Proof. apply (bool_decide_unpack _). vm_compute. exact I. Qed.

Lemma player_row_total player totals j t :
  totals !! j = Some t → player_row player totals !! S j = Some (CInt t).
Proof.
  intros Ht. unfold player_row. simpl.
  rewrite lookup_app_l by (rewrite length_fmap; by eapply lookup_lt_Some).
  by rewrite list_lookup_fmap, Ht.
Qed.

(** C5, as amended. The cell of a player for a team holds the sum of
    [Power], reduced to 64 bits, over the pairs of a member of the team and
    a character of the player whose lower-cased [ID] is that member: a
    character counts once for every occurrence of its lower-cased [ID] in
    the list of members. For a list of members without repetition, as
    every list of the catalog is, that is the sum, reduced to 64 bits, over
    exactly the characters whose lower-cased [ID] is a member, and the sum
    itself when it fits an [int]. "Thor" counts for the member "thor", and
    a character counts for every team that lists it. *)
Theorem team_total_per_member_occurrence pcm teams sheetName result player
    characters j team :
  generateAverageTeamPowerByPlayerReport pcm teams sheetName result →
  pcm !! player = Some characters →
  teams !! j = Some team →
  (∃ k row,
     result.2 !! S k = Some row ∧
     row !! 0%nat = Some (CString player) ∧
     row !! S j = Some (CInt (teamTotalPower team characters))) ∧
  teamTotalPower team characters =
    GoInt.wrap (GoInt.sumZ (Power <$> matches team characters)) ∧
  (NoDup (Characters team) →
   teamTotalPower team characters = GoInt.wrap (spec_team_total team characters) ∧
   (GoInt.in_range (spec_team_total team characters) →
    teamTotalPower team characters = spec_team_total team characters)) ∧
  (team ∈ catalog →
   teamTotalPower team characters = GoInt.wrap (spec_team_total team characters)) ∧
  teamTotalPower asgardian [character "Thor" player 7] = 7 ∧
  teamTotalPower mawTron [character "Ultron" player 9] = 9 ∧
  teamTotalPower techWing [character "Ultron" player 9] = 9.
Proof.
  intros Hgen Hpl Hteam.
  assert (teams ≠ []) as Hne by (by destruct teams).
  split; [|split; [by rewrite teamTotalPower_matches, sum_from_0|split]].
  - destruct (proj2 (generate_rows pcm teams sheetName result
                       (player_row player (team_totals teams characters)) Hne Hgen))
      as [k Hk]; [by exists player, characters|].
    exists k, (player_row player (team_totals teams characters)).
    split; [done|]. split; [done|]. apply player_row_total.
    unfold team_totals. by rewrite list_lookup_fmap, Hteam.
  - intros Hnd. split; [by apply teamTotalPower_NoDup|].
    intros Hfit. rewrite teamTotalPower_NoDup by done. by apply wrap_id.
  - split; [|by vm_compute].
    intros Hin. apply teamTotalPower_NoDup.
    pose proof catalog_distinct_lowercase as Hcat.
    rewrite Forall_forall in Hcat. by destruct (Hcat team Hin).
Qed.

(** ** Ties *)






Lemma playerKeys_of_NoDup pcm : NoDup (playerKeys_of pcm).
Proof.
  unfold playerKeys_of. rewrite sort_Strings_perm. apply NoDup_fst_map_to_list.
Qed.



(** * Further properties of the code *)

(** ** The grouping loop *)

Lemma group_character_records m c :
  concat (map_to_list (group_character m c)).*2 ≡ₚ c :: concat (map_to_list m).*2.
Proof.
  unfold group_character. destruct (m !! Player c) as [cs|] eqn:E.
  - rewrite <- (insert_delete_eq m), map_to_list_insert by apply lookup_delete_eq.
    rewrite <- (map_to_list_delete m (Player c) cs E). simpl.
    rewrite <- app_assoc. simpl. by rewrite <- Permutation_middle.
  - by rewrite map_to_list_insert.
Qed.

Lemma group_by_player_snoc l c :
  group_by_player (l ++ [c]) = group_character (group_by_player l) c.
Proof. unfold group_by_player. by rewrite foldl_snoc. Qed.

(** X1. The map [main] builds has exactly the players of the records as
    keys; the sequence of a player is the records of that player in their
    order of arrival, never empty; and the sequences together hold every
    record once. *)
Theorem group_by_player_partition records :
  (∀ p cs, group_by_player records !! p = Some cs ↔
           cs = filter (λ c, Player c = p) records ∧ cs ≠ []) ∧
  (∀ p, group_by_player records !! p = None ↔ p ∉ Player <$> records) ∧
  concat (map_to_list (group_by_player records)).*2 ≡ₚ records.
Proof.
  split; [|split].
  - intros p cs. rewrite group_by_player_lookup.
    destruct (filter (λ c, Player c = p) records) eqn:E; naive_solver.
  - intros p. rewrite <- not_elem_of_dom, group_by_player_dom.
    by rewrite elem_of_list_to_set.
  - induction records as [|c records IH] using rev_ind.
    + unfold group_by_player. simpl. by rewrite map_to_list_empty.
    + rewrite group_by_player_snoc, group_character_records, IH.
      by rewrite <- Permutation_cons_append.
Qed.

(** ** Independence of the order of the records *)

Lemma sumZ_perm (l1 l2 : list Z) : l1 ≡ₚ l2 → GoInt.sumZ l1 = GoInt.sumZ l2.
Proof. induction 1; simpl; lia. Qed.

Lemma matches_perm team cs cs' : cs ≡ₚ cs' → matches team cs ≡ₚ matches team cs'.
Proof.
  intros Hp. unfold matches. induction (Characters team) as [|m ms IH]; [done|].
  rewrite !bind_cons. by rewrite IH, Hp.
Qed.

Lemma matches_app team cs1 cs2 :
  matches team (cs1 ++ cs2) ≡ₚ matches team cs1 ++ matches team cs2.
Proof.
  unfold matches. induction (Characters team) as [|m ms IH]; [done|].
  rewrite !bind_cons, filter_app, IH.
  rewrite <- !app_assoc. apply Permutation_app_head.
  rewrite !app_assoc. apply Permutation_app_tail. apply Permutation_app_comm.
Qed.

(** The total of a team does not depend on the order of the characters. *)
Lemma teamTotalPower_perm team cs cs' :
  cs ≡ₚ cs' → teamTotalPower team cs = teamTotalPower team cs'.
Proof.
  intros Hp. rewrite !teamTotalPower_matches, !sum_from_0. f_equal.
  apply sumZ_perm. by rewrite (matches_perm team cs cs' Hp).
Qed.

Lemma team_totals_perm teams cs cs' :
  cs ≡ₚ cs' → team_totals teams cs = team_totals teams cs'.
Proof.
  intros Hp. unfold team_totals. apply list_fmap_ext. intros _ team _.
  by apply teamTotalPower_perm.
Qed.

Lemma playerKeys_of_dom pcm pcm' :
  dom pcm = dom pcm' → playerKeys_of pcm = playerKeys_of pcm'.
Proof.
  intros Hdom. unfold playerKeys_of. apply sort_Strings_order.
  apply NoDup_Permutation; try apply NoDup_fst_map_to_list.
  intros p. rewrite !list_elem_of_fmap.
  assert (∀ m : gmap string MSFPlayerCharacters,
            (∃ y : string * MSFPlayerCharacters, p = y.1 ∧ y ∈ map_to_list m) ↔ p ∈ dom m)
    as Hd.
  { intros m. rewrite elem_of_dom. split.
    - intros [[q cs] [-> H]]. apply elem_of_map_to_list in H. by exists cs.
    - intros [cs H]. exists (p, cs). split; [done|]. by apply elem_of_map_to_list. }
  by rewrite !Hd, Hdom.
Qed.

(** Two maps with the same players, each with the same characters up to
    their order, give the same table. *)
Lemma table_of_perm pcm pcm' teams :
  dom pcm = dom pcm' →
  (∀ p cs cs', pcm !! p = Some cs → pcm' !! p = Some cs' → cs ≡ₚ cs') →
  table_of pcm teams = table_of pcm' teams.
Proof.
  intros Hdom Hcs. unfold table_of, player_rows. f_equal.
  destruct teams as [|team teams]; [done|].
  rewrite <- (playerKeys_of_dom pcm pcm' Hdom).
  apply Forall_fmap_ext_1, Forall_forall. intros p [cs Hp]%playerKeys_of_elem.
  assert (is_Some (pcm' !! p)) as [cs' Hp'].
  { apply elem_of_dom. rewrite <- Hdom. apply elem_of_dom. by exists cs. }
  rewrite Hp, Hp'. change (default [] (Some cs)) with cs.
  change (default [] (Some cs')) with cs'.
  by rewrite (team_totals_perm (team :: teams) cs cs' (Hcs p cs cs' Hp Hp')).
Qed.

(** X2. The report does not depend on the order in which the records
    arrive: two lists with the same records give the same table before the
    ranking sort, and the same results. *)
Theorem report_independent_of_record_order records records' teams :
  records ≡ₚ records' →
  build_cellValues (group_by_player records) teams =
    build_cellValues (group_by_player records') teams ∧
  ∀ sheetName result,
    generateAverageTeamPowerByPlayerReport (group_by_player records) teams
      sheetName result ↔
    generateAverageTeamPowerByPlayerReport (group_by_player records') teams
      sheetName result.
Proof.
  intros Hp.
  assert (build_cellValues (group_by_player records) teams =
          build_cellValues (group_by_player records') teams) as Heq.
  { rewrite !build_cellValues_table. f_equal. apply table_of_perm.
    - rewrite !group_by_player_dom. apply set_eq. intros p.
      rewrite !elem_of_list_to_set. by rewrite Hp.
    - intros p cs cs'. rewrite !group_by_player_lookup.
      assert (filter (λ c, Player c = p) records ≡ₚ
              filter (λ c, Player c = p) records') as Hf by (by rewrite Hp).
      destruct (filter (λ c, Player c = p) records),
               (filter (λ c, Player c = p) records'); naive_solver. }
  split; [done|]. intros sheetName result.
  unfold generateAverageTeamPowerByPlayerReport. by rewrite Heq.
Qed.

(** ** The comparator on arbitrary tables *)

Lemma trailing_None (a : list Row) i :
  trailing a i = None ↔ (length a ≤ i)%nat ∨ a !! i = Some [].
Proof.
  rewrite trailing_last. destruct (a !! i) as [r|] eqn:E; simpl.
  - rewrite last_None. split.
    + intros ->. by right.
    + intros [Hlen|Hr]; [|by simplify_eq].
      apply lookup_lt_Some in E. lia.
  - split; [|done]. intros _. left. by apply lookup_ge_None.
Qed.

(** X3. [Less(i, j)] panics exactly when row [i] is missing or empty, or
    when row [i] ends in an [int] and row [j] is missing or empty; when
    row [i] ends in a cell that is not an [int] it answers true without
    looking at row [j], whatever [j] is, [i] itself included. *)
Theorem Less_panics_iff (a : list Row) i j :
  (Less a i j = None ↔
   ((length a ≤ i)%nat ∨ a !! i = Some []) ∨
   ((∃ x, trailing a i = Some (CInt x)) ∧
    ((length a ≤ j)%nat ∨ a !! j = Some []))) ∧
  (∀ c, trailing a i = Some c → assert_int c = None → Less a i j = Some true) ∧
  (∀ c, trailing a i = Some c → assert_int c = None → Less a i i = Some true).
Proof.
  split; [|split].
  - rewrite <- !trailing_None. unfold Less.
    destruct (trailing a i) as [[| |x]|] eqn:Ei; simpl.
    + split; [done|]. intros [?|[[x ?] _]]; done.
    + split; [done|]. intros [?|[[x ?] _]]; done.
    + destruct (trailing a j) as [[| |y]|] eqn:Ej; simpl.
      * split; [done|]. intros [?|[_ ?]]; done.
      * split; [done|]. intros [?|[_ ?]]; done.
      * split; [done|]. intros [?|[_ ?]]; done.
      * split; [|done]. intros _. right. split; [by exists x | done].
    + split; [|done]. intros _. by left.
  - intros c Hc Hn. unfold Less. rewrite Hc. simpl. by rewrite Hn.
  - intros c Hc Hn. unfold Less. rewrite Hc. simpl. by rewrite Hn.
Qed.

Lemma filter_two {A} (P : A → Prop) `{∀ x, Decision (P x)} (l : list A) i j x y :
  (i < j)%nat → l !! i = Some x → l !! j = Some y → P x → P y →
  (2 ≤ length (filter P l))%nat.
Proof.
  intros Hij Hi Hj Hx Hy.
  rewrite <- (take_drop_middle l i x Hi).
  rewrite filter_app, filter_cons, decide_True by done.
  assert (drop (S i) l !! (j - S i)%nat = Some y) as Hd.
  { rewrite lookup_drop. rewrite <- Hj. f_equal. lia. }
  rewrite <- (take_drop_middle _ _ y Hd).
  rewrite filter_app, filter_cons, decide_True by done.
  rewrite !length_app. simpl. rewrite length_app. simpl. lia.
Qed.

(** X4. Two rows that both end in a cell that is not an [int] are each
    less than the other, so a table with two such rows has no arrangement
    that [sort.IsSorted] accepts. *)
Theorem two_non_int_rows_unsortable (a : list Row) i j ri rj :
  i ≠ j → a !! i = Some ri → a !! j = Some rj →
  non_int_row ri → non_int_row rj →
  Less a i j = Some true ∧ Less a j i = Some true ∧
  ∀ out, a ≡ₚ out → IsSorted out ≠ Some true.
Proof.
  intros Hne Hi Hj Hbi Hbj.
  rewrite (Less_rows a i j ri rj Hi Hj), (Less_rows a j i rj ri Hj Hi).
  split; [by apply less_rows_non_int|]. split; [by apply less_rows_non_int|].
  intros out Hp Hsorted.
  assert (2 ≤ length (filter non_int_row a))%nat as H2.
  { destruct (decide (i < j)%nat).
    - by apply (filter_two non_int_row a i j ri rj).
    - apply (filter_two non_int_row a j i rj ri); [lia | done..]. }
  rewrite Hp in H2.
  destruct out as [|h rest]; [simpl in H2; lia|].
  assert (filter non_int_row rest = []) as Hrest.
  { apply filter_none. intros r [k Hk]%list_elem_of_lookup.
    apply int_row_not_non_int.
    apply (IsSorted_tail_ints (h :: rest) k r Hsorted). done. }
  rewrite filter_cons, Hrest in H2. destruct (decide (non_int_row h)); simpl in H2; lia.
Qed.

(** ** [Swap] *)

Lemma list_lookup_swap {A} (l : list A) i j x y k :
  (i < length l)%nat → (j < length l)%nat →
  (<[j:=x]> (<[i:=y]> l)) !! k =
  if decide (k = j) then Some x else if decide (k = i) then Some y else l !! k.
Proof.
  intros Hi Hj. destruct (decide (k = j)) as [->|Hkj].
  - by rewrite list_lookup_insert_eq by (by rewrite length_insert).
  - rewrite list_lookup_insert_ne by done.
    destruct (decide (k = i)) as [->|Hki].
    + by rewrite list_lookup_insert_eq.
    + by rewrite list_lookup_insert_ne.
Qed.

Lemma insert_head_perm {A} (l : list A) j x y :
  l !! j = Some y → y :: <[j:=x]> l ≡ₚ x :: l.
Proof.
  revert j. induction l as [|z l IH]; intros [|j] Hj; simplify_eq/=.
  - apply perm_swap.
  - rewrite perm_swap, (IH j Hj). apply perm_swap.
Qed.

Lemma insert_insert_perm {A} (l : list A) i j x y :
  l !! i = Some x → l !! j = Some y → <[j:=x]> (<[i:=y]> l) ≡ₚ l.
Proof.
  revert i j. induction l as [|z l IH]; intros [|i] [|j] Hi Hj; simplify_eq/=.
  - done.
  - by apply insert_head_perm.
  - by apply insert_head_perm.
  - by rewrite (IH i j).
Qed.

(** X6. [Swap(i, j)] panics exactly when one of the two rows is missing;
    otherwise it exchanges rows [i] and [j], leaves every other row where
    it is, keeps the rows of the table, and a second [Swap(i, j)] restores
    the table. *)
Theorem Swap_exchanges (a : list Row) i j :
  (Swap a i j = None ↔ (length a ≤ i)%nat ∨ (length a ≤ j)%nat) ∧
  ∀ a', Swap a i j = Some a' →
    a' !! i = a !! j ∧ a' !! j = a !! i ∧
    (∀ k, k ≠ i → k ≠ j → a' !! k = a !! k) ∧
    length a' = length a ∧ a' ≡ₚ a ∧ Swap a' i j = Some a.
Proof.
  unfold Swap. split.
  - destruct (a !! i) as [ri|] eqn:Ei; simpl.
    + destruct (a !! j) as [rj|] eqn:Ej; simpl.
      * split; [done|]. apply lookup_lt_Some in Ei, Ej. lia.
      * split; [|done]. intros _. right. by apply lookup_ge_None.
    + split; [|done]. intros _. left. by apply lookup_ge_None.
  - intros a' Ha'.
    destruct (a !! i) as [ri|] eqn:Ei; [|done]. simpl in Ha'.
    destruct (a !! j) as [rj|] eqn:Ej; [|done]. simpl in Ha'.
    injection Ha' as <-.
    pose proof (lookup_lt_Some _ _ _ Ei) as Hi.
    pose proof (lookup_lt_Some _ _ _ Ej) as Hj.
    pose proof (λ k, list_lookup_swap a i j ri rj k Hi Hj) as Hlook.
    assert (length (<[j:=ri]> (<[i:=rj]> a)) = length a) as Hlen
      by (by rewrite !length_insert).
    assert ((<[j:=ri]> (<[i:=rj]> a)) !! i = Some rj) as Hi'.
    { rewrite Hlook. destruct (decide (i = j)) as [->|]; [congruence|].
      by rewrite decide_True. }
    assert ((<[j:=ri]> (<[i:=rj]> a)) !! j = Some ri) as Hj'.
    { rewrite Hlook. by rewrite decide_True. }
    split; [congruence|]. split; [congruence|]. split.
    { intros k Hki Hkj. rewrite Hlook. by rewrite !decide_False. }
    split; [done|]. split; [by apply insert_insert_perm|].
    rewrite Hi', Hj'. simpl. f_equal. apply list_eq. intros k.
    rewrite list_lookup_swap by (rewrite Hlen; done).
    destruct (decide (k = j)) as [->|Hkj]; [done|].
    destruct (decide (k = i)) as [->|Hki]; [done|].
    rewrite Hlook. by rewrite !decide_False.
Qed.

(** ** The comparator on the tables the report builds *)

(** X5. On every table the loops of the report build, [Less] never panics
    on rows of the table and is an ordering [sort.Sort] can sort by:
    between two different rows it is asymmetric, it is transitive, and so
    is being ordered neither way. *)
Theorem Less_orders_built_tables pcm teams cellValues :
  build_cellValues pcm teams = Some cellValues →
  ∀ i j k,
    (i < length cellValues)%nat → (j < length cellValues)%nat →
    (k < length cellValues)%nat →
    (∃ b, Less cellValues i j = Some b) ∧
    (i ≠ j → Less cellValues i j = Some true → Less cellValues j i = Some false) ∧
    (Less cellValues i j = Some true → Less cellValues j k = Some true →
     Less cellValues i k = Some true) ∧
    (Less cellValues i j = Some false → Less cellValues j i = Some false →
     Less cellValues j k = Some false → Less cellValues k j = Some false →
     Less cellValues i k = Some false ∧ Less cellValues k i = Some false).
Proof.
  rewrite build_cellValues_table. intros [= <-] i j k Hi Hj Hk. unfold table_of in *.
  pose proof (header_row_non_int teams) as Hh.
  pose proof (player_rows_int pcm teams) as Hrows.
  destruct (lookup_lt_is_Some_2 _ i Hi) as [ri Hri].
  destruct (lookup_lt_is_Some_2 _ j Hj) as [rj Hrj].
  destruct (lookup_lt_is_Some_2 _ k Hk) as [rk Hrk].
  split; [|split; [|split]].
  - by apply Less_table_defined.
  - intros Hne. by apply (Less_table_asymmetric _ _ i j ri rj).
  - by apply (Less_table_transitive _ _ i j k ri rj rk).
  - by apply (Less_table_ties_transitive _ _ i j k ri rj rk).
Qed.

(** ** The total of a team *)

Lemma add_wrap a b : GoInt.add (GoInt.wrap a) (GoInt.wrap b) = GoInt.wrap (a + b).
Proof. unfold GoInt.add. by rewrite wrap_add_l, wrap_add_r. Qed.

Lemma teamTotalPower_in_range team cs : GoInt.in_range (teamTotalPower team cs).
Proof. rewrite teamTotalPower_matches, sum_from_0. apply wrap_in_range. Qed.

(** X7. The total of a team over two sequences of characters one after
    the other is the [int] sum of the two totals, so a character listed
    twice counts twice; a character that lower-cases to no member of the
    team adds nothing; the total of no characters, and of a team without
    members, is 0; and the total is the same for every order of the
    characters. *)
Theorem teamTotalPower_composes team cs1 cs2 :
  teamTotalPower team (cs1 ++ cs2) =
    GoInt.add (teamTotalPower team cs1) (teamTotalPower team cs2) ∧
  (∀ c, ToLower (ID c) ∉ Characters team →
        teamTotalPower team (c :: cs1) = teamTotalPower team cs1) ∧
  teamTotalPower team [] = 0 ∧
  (Characters team = [] → teamTotalPower team cs1 = 0) ∧
  (∀ cs', cs1 ≡ₚ cs' → teamTotalPower team cs1 = teamTotalPower team cs').
Proof.
  assert (∀ l1 l2, teamTotalPower team (l1 ++ l2) =
                   GoInt.add (teamTotalPower team l1) (teamTotalPower team l2)) as Happ.
  { intros l1 l2. rewrite !teamTotalPower_matches, !sum_from_0, add_wrap. f_equal.
    rewrite <- sumZ_app, <- fmap_app. apply sumZ_perm.
    by rewrite (matches_app team l1 l2). }
  split; [apply Happ|]. split; [|split; [|split]].
  - intros c Hc. change (c :: cs1) with ([c] ++ cs1). rewrite Happ.
    rewrite (teamTotalPower_no_match team [c]).
    + unfold GoInt.add. simpl. apply wrap_id, teamTotalPower_in_range.
    + intros c' Hc'. apply list_elem_of_singleton in Hc'. by subst.
  - apply teamTotalPower_no_match. intros c Hc. by apply not_elem_of_nil in Hc.
  - intros Hnil. apply teamTotalPower_no_match. intros c _. rewrite Hnil.
    apply not_elem_of_nil.
  - intros cs'. apply teamTotalPower_perm.
Qed.

(** ** Matching is folded on the side of the character only *)

Lemma lower_byte_not_upper c : is_upper_byte (lower_byte c) = false.
Proof.
  unfold lower_byte. destruct (is_upper_byte c) eqn:E; [|done].
  unfold is_upper_byte in *. apply andb_true_iff in E as [H1 H2].
  apply N.leb_le in H1, H2.
  rewrite N_ascii_embedding by lia.
  apply andb_false_iff. right. apply N.leb_gt. lia.
Qed.

Lemma map_lower_no_upper s : has_upper_byte (map_bytes lower_byte s) = false.
Proof.
  induction s as [|c s IH]; [done|]. simpl. by rewrite lower_byte_not_upper, IH.
Qed.

(** X8. [strings.ToLower] is applied to the [ID] of the character and not
    to the member of the team: a member written with a capital ASCII
    letter matches no character with an ASCII [ID], so a team of such
    members has the total 0 whatever the player owns. *)
Theorem capital_member_never_matches team cs :
  Forall (λ member, has_upper_byte member = true) (Characters team) →
  Forall (λ c, isASCII (ID c) = true) cs →
  teamTotalPower team cs = 0.
Proof.
  intros Hupper Hascii. apply teamTotalPower_no_match. intros c Hc Hin.
  rewrite Forall_forall in Hupper. rewrite Forall_forall in Hascii.
  specialize (Hupper _ Hin). specialize (Hascii _ Hc).
  unfold ToLower in Hupper. rewrite Hascii in Hupper.
  by rewrite map_lower_no_upper in Hupper.
Qed.

(** ** The table: panics, nil cells and the range of its numbers *)

Lemma table_of_length pcm teams :
  length (table_of pcm teams) =
  match teams with [] => 1%nat | _ => (size pcm + 1)%nat end.
Proof.
  unfold table_of. simpl. destruct teams as [|team teams]; [done|].
  rewrite player_rows_length by done. lia.
Qed.

Lemma elem_of_table_of pcm teams row :
  row ∈ table_of pcm teams →
  row = header_row teams ∨
  ∃ player cs, pcm !! player = Some cs ∧
               row = player_row player (team_totals teams cs).
Proof.
  unfold table_of. intros [->|Hrow]%elem_of_cons; [by left|]. right.
  destruct teams as [|team teams].
  - by apply not_elem_of_nil in Hrow.
  - by apply elem_of_player_rows in Hrow.
Qed.

Lemma average_of_in_range totals : GoInt.in_range (average_of totals).
Proof. apply wrap_in_range. Qed.

(** X9. For every map of players and every list of teams the loops that
    build the table run to their end without a panic: no index is out of
    range and no division is by zero. Every cell of the table has been
    written (none is left nil), every row has one cell per team and two
    more, and every number in the table is within the range of [int]. *)
Theorem build_cellValues_total pcm teams :
  ∃ cellValues,
    build_cellValues pcm teams = Some cellValues ∧
    Forall (λ row : Row,
              length row = (length teams + 2)%nat ∧
              Forall (λ c, c ≠ CNil) row ∧
              ∀ x, CInt x ∈ row → GoInt.in_range x) cellValues.
Proof.
  exists (table_of pcm teams). split; [apply build_cellValues_table|].
  apply Forall_forall. intros row Hrow.
  apply elem_of_table_of in Hrow as [->|(player & cs & _ & ->)].
  - split; [apply header_row_length|]. unfold header_row. split.
    + rewrite !Forall_app, Forall_fmap. repeat split.
      * by repeat constructor.
      * apply Forall_forall. by intros team _.
      * by repeat constructor.
    + intros x Hx. exfalso.
      rewrite !elem_of_app, list_elem_of_fmap, !list_elem_of_singleton in Hx.
      destruct Hx as [[?|(team & ? & _)]|?]; done.
  - split; [by rewrite player_row_length, team_totals_length|].
    unfold player_row. split.
    + constructor; [done|]. rewrite Forall_app, Forall_fmap. split.
      * apply Forall_forall. by intros t _.
      * by repeat constructor.
    + intros x Hx.
      rewrite elem_of_cons, elem_of_app, list_elem_of_fmap, list_elem_of_singleton in Hx.
      destruct Hx as [?|[(t & [= ->] & Ht)|[= ->]]]; [done| |apply average_of_in_range].
      unfold team_totals in Ht. apply list_elem_of_fmap in Ht as (team & -> & _).
      apply teamTotalPower_in_range.
Qed.

(** ** Empty inputs and too many teams *)

(** X10. Without any team the function neither divides by zero nor lists
    a player: whatever the map of players, the table is the one row
    "Player", "Average" and the range is the sheet name with "!A1:B1". *)
Theorem no_teams_header_only pcm sheetName result :
  generateAverageTeamPowerByPlayerReport pcm [] sheetName result ↔
  result = (sheetName +:+ "!A1:B1", [[CString "Player"; CString "Average"]]).
Proof.
  rewrite generate_iff. split.
  - intros (rest & Hout & Hp & _ & Hrange).
    change (player_rows pcm []) with (@nil Row) in Hp.
    apply Permutation_nil_l in Hp. subst rest.
    destruct result as [writeRange table].
    simpl in *. subst table. f_equal.
    injection Hrange as <-. reflexivity.
  - intros ->. exists []. repeat split; simpl; [done | constructor].
Qed.

(** X11. Without any player the table is the header alone, and the range
    is one row high; the function returns it when there are at most 24
    teams. *)
Theorem no_players_header_only teams sheetName result :
  generateAverageTeamPowerByPlayerReport ∅ teams sheetName result ↔
  (length teams ≤ 24)%nat ∧
  result = (sheetName +:+ "!A1:" +:+ column_letter (length teams + 2) +:+ "1",
            [header_row teams]).
Proof.
  rewrite generate_iff.
  assert (player_rows ∅ teams = []) as Hrows.
  { unfold player_rows. destruct teams; [done|].
    unfold playerKeys_of. by rewrite map_to_list_empty. }
  rewrite Hrows. split.
  - intros (rest & Hout & Hp & _ & Hrange).
    apply Permutation_nil_l in Hp. subst rest. simpl in Hrange.
    unfold rangeAddress in Hrange.
    replace (length teams + 2)%nat with (S (length teams + 1)) in Hrange by lia.
    destruct (sheetCellIndexToLetter !! (length teams + 1)%nat) as [letter|] eqn:E;
      [|done].
    assert (length teams ≤ 24)%nat as Hlen.
    { apply lookup_lt_Some in E. simpl in E. lia. }
    split; [done|].
    pose proof (rangeAddress_letter (length teams + 2) ltac:(lia)) as Hl.
    replace (length teams + 2 - 1)%nat with (length teams + 1)%nat in Hl by lia.
    rewrite E in Hl. injection Hl as ->. simpl in Hrange. injection Hrange as Hr.
    destruct result as [writeRange table]. simpl in *. by subst.
  - intros [Hlen ->]. exists []. simpl. repeat split; [done | constructor |].
    unfold rangeAddress.
    replace (length teams + 2)%nat with (S (length teams + 1)) at 1 by lia.
    pose proof (rangeAddress_letter (length teams + 2) ltac:(lia)) as Hl.
    replace (length teams + 2 - 1)%nat with (length teams + 1)%nat in Hl by lia.
    by rewrite Hl.
Qed.

(** X12. The function returns a result exactly when there are at most 24
    teams: with 25 or more the table has more than 26 columns and the
    lookup of the column letter panics, after the table has been built and
    sorted. *)
Theorem returns_iff_at_most_24_teams pcm teams sheetName :
  (∃ result, generateAverageTeamPowerByPlayerReport pcm teams sheetName result) ↔
  (length teams ≤ 24)%nat.
Proof.
  split.
  - intros [result (rest & _ & _ & _ & Hrange)%generate_iff].
    unfold rangeAddress in Hrange.
    replace (length teams + 2)%nat with (S (length teams + 1)) in Hrange by lia.
    destruct (sheetCellIndexToLetter !! (length teams + 1)%nat) as [letter|] eqn:E;
      [|done].
    apply lookup_lt_Some in E. simpl in E. lia.
  - intros Hlen. apply generate_total. lia.
Qed.

(** ** Range addresses *)

Lemma column_letter_inj c c' :
  (1 ≤ c ≤ 26)%nat → (1 ≤ c' ≤ 26)%nat → column_letter c = column_letter c' → c = c'.
Proof.
  intros Hc Hc' Heq.
  assert (NoDup sheetCellIndexToLetter) as Hnd.
  { apply (bool_decide_unpack _). vm_compute. exact I. }
  pose proof (rangeAddress_letter c Hc) as H1.
  pose proof (rangeAddress_letter c' Hc') as H2.
  rewrite <- Heq in H2.
  pose proof (NoDup_lookup _ _ _ _ Hnd H1 H2). lia.
Qed.

Lemma column_letter_app c s :
  column_letter c +:+ s = String (ascii_of_nat (64 + c)) s.
Proof. reflexivity. Qed.

(** X13. The range address tells the shape of the table: for one sheet
    name, tables with different numbers of columns or of rows have
    different addresses. *)
Theorem rangeAddress_injective sheetName columns rows columns' rows' address :
  rangeAddress sheetName columns rows = Some address →
  rangeAddress sheetName columns' rows' = Some address →
  columns = columns' ∧ rows = rows'.
Proof.
  assert (∀ c r a, rangeAddress sheetName c r = Some a →
            (1 ≤ c ≤ 26)%nat ∧
            a = sheetName +:+ "!A1:" +:+ column_letter c +:+ Itoa (Z.of_nat r)) as Hshape.
  { intros c r a Ha. unfold rangeAddress in Ha. destruct c as [|k]; [done|].
    destruct (sheetCellIndexToLetter !! k) as [letter|] eqn:E; [|done].
    assert (1 ≤ S k ≤ 26)%nat as Hk.
    { apply lookup_lt_Some in E. simpl in E. lia. }
    split; [done|].
    pose proof (rangeAddress_letter (S k) Hk) as Hl.
    replace (S k - 1)%nat with k in Hl by lia. rewrite E in Hl.
    injection Hl as ->. by injection Ha as <-. }
  intros [Hc ->]%Hshape [Hc' Heq]%Hshape.
  apply (inj (String.app sheetName)) in Heq.
  apply (inj (String.app "!A1:")) in Heq.
  rewrite !column_letter_app in Heq. injection Heq as Hletter Hrows.
  split.
  - apply column_letter_inj; [done..|]. unfold column_letter. f_equal. exact Hletter.
  - apply (inj pretty) in Hrows. lia.
Qed.

(** ** The four reports *)

Lemma generate_shape pcm teams sheetName result :
  teams ≠ [] →
  generateAverageTeamPowerByPlayerReport pcm teams sheetName result →
  length result.2 = (size pcm + 1)%nat ∧
  Forall (λ row : Row, length row = (length teams + 2)%nat) result.2 ∧
  rangeAddress sheetName (length teams + 2) (size pcm + 1) = Some result.1.
Proof.
  intros Hne (rest & Hout & Hp & _ & Hrange)%generate_iff.
  assert (length rest = size pcm) as Hlen.
  { by rewrite <- Hp, player_rows_length. }
  rewrite Hout. simpl. rewrite Hlen. split; [lia|]. split.
  - constructor; [apply header_row_length|]. rewrite <- Hp.
    apply Forall_forall. intros row (p & cs & _ & ->)%elem_of_player_rows; [|done].
    by rewrite player_row_length, team_totals_length.
  - rewrite Hlen in Hrange. by rewrite Nat.add_1_r.
Qed.

(** X14. Each of the four report functions returns for every map of
    players; its table has one row per player and the header, and 13
    columns for "Offense", 10 for "Defense", 6 for "Flex" and 6 for "U7";
    its range runs from A1 to column M, J, F and F of the sheet of that
    name, down to the row after the last player. *)
Theorem four_reports_ranges pcm :
  ((∃ result, generateTopWarOffenseTeamsByPlayerReport pcm result) ∧
   ∀ result, generateTopWarOffenseTeamsByPlayerReport pcm result →
     length result.2 = (size pcm + 1)%nat ∧
     Forall (λ row : Row, length row = 13%nat) result.2 ∧
     result.1 = "Offense!A1:M" +:+ Itoa (Z.of_nat (size pcm + 1))) ∧
  ((∃ result, generateTopWarDefenseTeamsByPlayerReport pcm result) ∧
   ∀ result, generateTopWarDefenseTeamsByPlayerReport pcm result →
     length result.2 = (size pcm + 1)%nat ∧
     Forall (λ row : Row, length row = 10%nat) result.2 ∧
     result.1 = "Defense!A1:J" +:+ Itoa (Z.of_nat (size pcm + 1))) ∧
  ((∃ result, generateTopWarFlexTeamsByPlayerReport pcm result) ∧
   ∀ result, generateTopWarFlexTeamsByPlayerReport pcm result →
     length result.2 = (size pcm + 1)%nat ∧
     Forall (λ row : Row, length row = 6%nat) result.2 ∧
     result.1 = "Flex!A1:F" +:+ Itoa (Z.of_nat (size pcm + 1))) ∧
  ((∃ result, generateTopU7RaidTeamsByPlayerReport pcm result) ∧
   ∀ result, generateTopU7RaidTeamsByPlayerReport pcm result →
     length result.2 = (size pcm + 1)%nat ∧
     Forall (λ row : Row, length row = 6%nat) result.2 ∧
     result.1 = "U7!A1:F" +:+ Itoa (Z.of_nat (size pcm + 1))).
Proof.
  unfold generateTopWarOffenseTeamsByPlayerReport,
    generateTopWarDefenseTeamsByPlayerReport,
    generateTopWarFlexTeamsByPlayerReport, generateTopU7RaidTeamsByPlayerReport.
  assert (∀ teams sheetName,
            teams ≠ [] → (length teams + 2 ≤ 26)%nat →
            (∃ result, generateAverageTeamPowerByPlayerReport pcm teams sheetName result) ∧
            ∀ result, generateAverageTeamPowerByPlayerReport pcm teams sheetName result →
              length result.2 = (size pcm + 1)%nat ∧
              Forall (λ row : Row, length row = (length teams + 2)%nat) result.2 ∧
              rangeAddress sheetName (length teams + 2) (size pcm + 1) = Some result.1)
    as Hreport.
  { intros teams sheetName Hne Hlen. split; [by apply generate_total|].
    intros result. by apply generate_shape. }
  split; [|split; [|split]].
  - destruct (Hreport offenseTeams "Offense") as [Hex Hall]; [done | simpl; lia |].
    split; [done|]. intros result (Hlen & Hcols & Hrange)%Hall.
    split; [done|]. split; [done|]. by injection Hrange as <-.
  - destruct (Hreport defenseTeams "Defense") as [Hex Hall]; [done | simpl; lia |].
    split; [done|]. intros result (Hlen & Hcols & Hrange)%Hall.
    split; [done|]. split; [done|]. by injection Hrange as <-.
  - destruct (Hreport flexTeams "Flex") as [Hex Hall]; [done | simpl; lia |].
    split; [done|]. intros result (Hlen & Hcols & Hrange)%Hall.
    split; [done|]. split; [done|]. by injection Hrange as <-.
  - destruct (Hreport u7Teams "U7") as [Hex Hall]; [done | simpl; lia |].
    split; [done|]. intros result (Hlen & Hcols & Hrange)%Hall.
    split; [done|]. split; [done|]. by injection Hrange as <-.
Qed.

(** ** The average of a row *)

Lemma sumZ_between (l : list Z) lo hi :
  Forall (λ t, lo ≤ t ≤ hi) l →
  Z.of_nat (length l) * lo ≤ GoInt.sumZ l ≤ Z.of_nat (length l) * hi.
Proof. induction 1 as [|t l Ht _ IH]; simpl; lia. Qed.

Lemma quot_between s n lo hi :
  0 < n → n * lo ≤ s ≤ n * hi → lo ≤ s `quot` n ≤ hi.
Proof.
  intros Hn [Hlo Hhi]. destruct (Z_le_gt_dec 0 s) as [Hpos|Hneg].
  - rewrite Z.quot_div_nonneg by lia. split.
    + apply Z.div_le_lower_bound; lia.
    + apply Z.div_le_upper_bound; lia.
  - replace s with (- - s) by lia. rewrite Z.quot_opp_l by lia.
    rewrite Z.quot_div_nonneg by lia.
    pose proof (Z.div_le_upper_bound (- s) n (- lo) Hn ltac:(lia)).
    pose proof (Z.div_le_lower_bound (- s) n (- hi) Hn ltac:(lia)). lia.
Qed.

(** X15. In every row of a player the average lies between the smallest
    and the largest total of the row, provided the sum of the totals fits
    an [int]; and with a single team the average is the total of that
    team. *)
Theorem average_between_totals pcm teams sheetName result k row :
  generateAverageTeamPowerByPlayerReport pcm teams sheetName result →
  result.2 !! S k = Some row →
  ∃ player totals average,
    row = CString player :: (CInt <$> totals) ++ [CInt average] ∧
    (length teams = 1%nat → totals = [average]) ∧
    (∀ lo hi, Forall (λ t, lo ≤ t ≤ hi) totals →
              GoInt.in_range (GoInt.sumZ totals) → lo ≤ average ≤ hi).
Proof.
  intros Hgen Hrow.
  assert (teams ≠ []) as Hne.
  { intros ->. apply generate_iff in Hgen as (rest & Hout & Hp & _).
    change (player_rows pcm []) with (@nil Row) in Hp.
    apply Permutation_nil_l in Hp. subst rest. by rewrite Hout in Hrow. }
  destruct (proj1 (generate_rows pcm teams sheetName result row Hne Hgen))
    as (player & cs & Hp & ->); [by exists k|].
  set (totals := team_totals teams cs).
  assert (length totals = length teams) as Hl by apply team_totals_length.
  assert (totals ≠ []) as Hne'.
  { destruct totals; [|done]. destruct teams; [done | simpl in Hl; lia]. }
  exists player, totals, (average_of totals). split; [done|]. split.
  - intros H1. destruct teams as [|team [|team' teams]]; simpl in H1; try lia.
    unfold totals, team_totals. simpl. f_equal.
    rewrite average_of_quot by done. simpl. rewrite Z.quot_1_r. unfold GoInt.add.
    simpl. symmetry. apply wrap_id, teamTotalPower_in_range.
  - intros lo hi Hbetween Hfit. rewrite average_of_quot by done.
    rewrite sum_from_0, wrap_id by done.
    apply quot_between.
    + destruct totals; [done | simpl; lia].
    + by apply sumZ_between.
Qed.

(** ** The order in which [range] visits a map *)

(** X16. The table does not depend on the order in which [range] visits
    the maps: whatever order the pass of each team takes over the players,
    and whatever order the players are appended to [playerKeys] in, the
    loops build the same table. *)
Theorem table_independent_of_range_order pcm
    (visits : list (MSFTeam * list (string * MSFPlayerCharacters)))
    (keys : list string) :
  Forall (λ visit, visit.2 ≡ₚ map_to_list pcm) visits →
  keys ≡ₚ (map_to_list (playerTeamsMap_of pcm visits.*1)).*1 →
  build_cellValues_ranged visits keys = build_cellValues pcm visits.*1.
Proof.
  intros Hvisits Hkeys. unfold build_cellValues_ranged, build_cellValues.
  rewrite (playerTeamsMap_any_order pcm visits Hvisits).
  by rewrite (sort_Strings_order keys _ Hkeys).
Qed.

(** ** The players of the returned table *)

Lemma fmap_lookup_NoDup_inj {A B} (f : A → B) (l : list A) x y :
  NoDup (f <$> l) → x ∈ l → y ∈ l → f x = f y → x = y.
Proof.
  intros Hnd [i Hi]%list_elem_of_lookup [j Hj]%list_elem_of_lookup Hf.
  assert ((f <$> l) !! i = Some (f x)) as Hi' by (by rewrite list_lookup_fmap, Hi).
  assert ((f <$> l) !! j = Some (f x)) as Hj' by (by rewrite list_lookup_fmap, Hj, Hf).
  pose proof (NoDup_lookup _ _ _ _ Hnd Hi' Hj') as ->. congruence.
Qed.

(** X17. Behind the header, every player of the map has exactly one row
    in the returned table, and no row is of anyone else: the first cells
    of those rows are the players of the map, each once. *)
Theorem every_player_once pcm teams sheetName result :
  teams ≠ [] →
  generateAverageTeamPowerByPlayerReport pcm teams sheetName result →
  player_column result.2 ≡ₚ (λ player, Some (CString player)) <$> playerKeys_of pcm ∧
  NoDup (player_column result.2) ∧
  (∀ player, Some (CString player) ∈ player_column result.2 ↔ is_Some (pcm !! player)).
Proof.
  intros Hne (rest & Hout & Hp & _)%generate_iff.
  assert (player_column result.2 ≡ₚ
          (λ player, Some (CString player)) <$> playerKeys_of pcm) as Hcol.
  { unfold player_column. rewrite Hout. simpl. rewrite drop_0, <- Hp.
    unfold player_rows. destruct teams as [|team teams]; [done|].
    by rewrite <- list_fmap_compose. }
  split; [done|]. split.
  - rewrite Hcol. apply NoDup_fmap_2; [|apply playerKeys_of_NoDup].
    by intros p q [= ->].
  - intros player. rewrite Hcol, list_elem_of_fmap, <- playerKeys_of_elem. split.
    + by intros (q & [= ->] & Hq).
    + intros Hin. by exists player.
Qed.

(** ** When the result is unique *)

(** X18. The order of ties is all that [sort.Sort] leaves open: when the
    rows of a returned table have pairwise different trailing cells, as
    when no two players have the same average, it is the only table the
    function returns for that input, with the only range. *)
Theorem distinct_averages_unique_result pcm teams sheetName result result' :
  generateAverageTeamPowerByPlayerReport pcm teams sheetName result →
  generateAverageTeamPowerByPlayerReport pcm teams sheetName result' →
  NoDup (last <$> result.2) →
  result' = result.
Proof.
  intros (rest & Hout & Hp & Hs & Hrange)%generate_iff
         (rest' & Hout' & Hp' & Hs' & Hrange')%generate_iff Hnd.
  rewrite Hout, fmap_cons in Hnd. apply NoDup_cons in Hnd as [_ Hnd].
  assert (rest' = rest) as Heq.
  { apply (Sorted_unique_strong ranks_before); [| done | done | by rewrite <- Hp', Hp].
    intros r1 r2 Hr1 Hr2 H12 H21.
    assert (Forall int_row rest) as Hint by (rewrite <- Hp; apply player_rows_int).
    assert (r1 ∈ rest) as Hr1' by (by rewrite <- Hp, Hp').
    rewrite Forall_forall in Hint.
    destruct (Hint r1 Hr1') as [x Hx]. destruct (Hint r2 Hr2) as [y Hy].
    apply (fmap_lookup_NoDup_inj last rest); [done..|].
    unfold ranks_before, trailing_int in H12, H21. rewrite Hx, Hy in H12, H21.
    rewrite Hx, Hy. do 2 f_equal. lia. }
  subst rest'. rewrite Hrange in Hrange'. injection Hrange' as Hr.
  destruct result, result'. simpl in *. by subst.
Qed.

(** ** What one character adds, and the order of the teams *)

Lemma matches_single team c :
  GoInt.sumZ (Power <$> matches team [c]) =
  Z.of_nat (length (filter (λ member, member = ToLower (ID c)) (Characters team)))
  * Power c.
Proof.
  unfold matches. induction (Characters team) as [|m ms IH]; [done|].
  rewrite bind_cons, fmap_app, sumZ_app, IH, (filter_cons _ m ms).
  rewrite filter_cons, filter_nil.
  destruct (decide (ToLower (ID c) = m)) as [Heq|Hne].
  - rewrite decide_True by done. simpl. lia.
  - rewrite decide_False by (by intros ->). simpl. lia.
Qed.

(** X19. One more character adds its [Power] to the total of a team once
    for every time its lower-cased [ID] stands in the list of members of
    the team, in [int] arithmetic: nothing when it is not a member, once
    when it is listed once. *)
Theorem teamTotalPower_cons team c cs :
  teamTotalPower team (c :: cs) =
  GoInt.wrap
    (Z.of_nat (length (filter (λ member, member = ToLower (ID c)) (Characters team)))
     * Power c
     + teamTotalPower team cs).
Proof.
  rewrite !teamTotalPower_matches, !sum_from_0, wrap_add_r. f_equal.
  rewrite <- matches_single, <- sumZ_app, <- fmap_app. apply sumZ_perm.
  by rewrite <- (matches_app team [c] cs).
Qed.

(** X20. The order of the teams decides the order of the columns and
    nothing else: two lists of the same teams give a player the same
    totals, in the order of the teams, and the same average. *)
Theorem average_independent_of_team_order teams teams' cs :
  teams ≡ₚ teams' →
  team_totals teams cs ≡ₚ team_totals teams' cs ∧
  average_of (team_totals teams cs) = average_of (team_totals teams' cs).
Proof.
  intros Hp.
  assert (team_totals teams cs ≡ₚ team_totals teams' cs) as Htotals.
  { unfold team_totals. by rewrite Hp. }
  split; [done|]. unfold average_of.
  rewrite !sum_from_0, (sumZ_perm _ _ Htotals).
  by rewrite (Permutation_length Htotals).
Qed.

End Report.

(** * The report on concrete inputs *)

Example scenario_A_cells :
  build_cellValues no_unicode scenario_A_map [HLK] =
  Some scenario_A_table.
Proof. vm_compute. reflexivity. Qed.

Lemma scenario_A_report :
  generateAverageTeamPowerByPlayerReport no_unicode scenario_A_map [HLK] "Sheet"
    scenario_A_result.
Proof. check_report scenario_A_table. Defined.

Lemma header_stays_first_witness :
  generateAverageTeamPowerByPlayerReport no_unicode scenario_A_map [HLK] "Sheet"
    scenario_A_result ∧
  scenario_A_result.2 !! 0%nat = Some (header_row [HLK]).
Proof.
  split; [exact scenario_A_report|].
  exact (proj1 (proj2 (proj2 (proj2
    (header_stays_first no_unicode scenario_A_map [HLK] "Sheet"
       scenario_A_result scenario_A_report))))).
Defined.


Lemma header_is_player_labels_average_witness :
  generateAverageTeamPowerByPlayerReport no_unicode scenario_A_map [HLK] "Sheet"
    scenario_A_result ∧
  scenario_A_result.2 !! 0%nat =
  Some [CString "Player"; CString "HLK"; CString "Average"].
Proof.
  split; [exact scenario_A_report|].
  exact (header_is_player_labels_average no_unicode scenario_A_map [HLK] "Sheet"
           scenario_A_result scenario_A_report).
Defined.

(** C7 as stated fails: the first cell of the header is "Player", not
    "Owner". *)
Lemma header_is_not_owner :
  generateAverageTeamPowerByPlayerReport no_unicode scenario_A_map [HLK] "Sheet"
    scenario_A_result ∧
  scenario_A_result.2 !! 0%nat ≠ Some (spec_header [HLK]).
Proof. split; [exact scenario_A_report | discriminate]. Qed.




Lemma rangeAddress_format_witness :
  rangeAddress "Offense" 7 5 = Some ("Offense" +:+ "!A1:" +:+ column_letter 7 +:+ Itoa 5).
Proof.
  exact (proj1 (rangeAddress_format no_unicode "Offense" 7 5 ltac:(lia))).
Defined.

Lemma configured_categories_in_bounds_witness :
  ("Offense", offenseTeams) ∈ reportCategories ∧ (length offenseTeams + 2 ≤ 26)%nat.
Proof.
  assert (("Offense", offenseTeams) ∈ reportCategories) as Hin by (by left).
  split; [exact Hin|].
  exact (proj1 (configured_categories_in_bounds no_unicode "Offense" offenseTeams Hin)).
Defined.

Lemma average_is_truncated_mean_witness :
  (1 ≤ length [HLK])%nat ∧
  ∃ player totals average,
    [CString "alice"; CInt 100; CInt 100] =
      CString player :: (CInt <$> totals) ++ [CInt average] ∧
    length totals = length [HLK] ∧
    last [CString "alice"; CInt 100; CInt 100] = Some (CInt average) ∧
    average = GoInt.sum_from 0 totals `quot` Z.of_nat (length [HLK]).
Proof.
  assert (1 ≤ length [HLK])%nat as Hlen by (simpl; lia).
  split; [exact Hlen|].
  destruct (average_is_truncated_mean no_unicode scenario_A_map [HLK] "Sheet"
              scenario_A_result 0 [CString "alice"; CInt 100; CInt 100]
              Hlen scenario_A_report eq_refl)
    as (player & totals & average & H1 & H2 & H3 & H4 & _).
  exists player, totals, average. exact (conj H1 (conj H2 (conj H3 H4))).
Defined.

Lemma table_shape_witness :
  (1 ≤ length [HLK])%nat ∧
  Forall (λ row : Row, length row = (length [HLK] + 2)%nat) scenario_A_result.2 ∧
  length scenario_A_result.2 = (size scenario_A_map + 1)%nat.
Proof.
  assert (1 ≤ length [HLK])%nat as Hlen by (simpl; lia).
  split; [exact Hlen|].
  destruct (table_shape no_unicode scenario_A_map [HLK] "Sheet" scenario_A_result
              Hlen scenario_A_report) as (H1 & H2 & _).
  exact (conj H1 H2).
Defined.

Lemma team_total_per_member_occurrence_witness :
  scenario_A_map !! "alice" = Some [character "Hulk" "alice" 100] ∧
  teamTotalPower no_unicode HLK [character "Hulk" "alice" 100] =
  spec_team_total no_unicode HLK [character "Hulk" "alice" 100].
Proof.
  assert (scenario_A_map !! "alice" = Some [character "Hulk" "alice" 100]) as Hpl
    by (vm_compute; reflexivity).
  split; [exact Hpl|].
  destruct (team_total_per_member_occurrence no_unicode scenario_A_map [HLK] "Sheet"
              scenario_A_result "alice" [character "Hulk" "alice" 100] 0 HLK
              scenario_A_report Hpl eq_refl) as (_ & _ & Hnodup & _).
  apply Hnodup.
  - apply (bool_decide_unpack _). vm_compute. exact I.
  - vm_compute. split; discriminate.
Defined.

Lemma big_report :
  generateAverageTeamPowerByPlayerReport no_unicode (group_by_player big_records)
    [avengers; asgardian] "Sheet" big_result.
Proof. check_report big_result.2. Defined.

(** C3 as stated fails: two totals of 2^62 add up to -2^63 in an [int],
    and the average cell holds -2^62 where the floor of the sum over the
    number of teams is 2^62. *)
Lemma average_overflows :
  generateAverageTeamPowerByPlayerReport no_unicode (group_by_player big_records)
    [avengers; asgardian] "Sheet" big_result ∧
  big_result.2 !! 1%nat =
    Some [CString "p"; CInt (2 ^ 62); CInt (2 ^ 62); CInt (- 2 ^ 62)] ∧
  Forall (λ t, 0 ≤ t) [2 ^ 62; 2 ^ 62] ∧
  spec_average [2 ^ 62; 2 ^ 62] = 2 ^ 62 ∧
  - 2 ^ 62 ≠ spec_average [2 ^ 62; 2 ^ 62].
Proof.
  split; [exact big_report|]. split; [reflexivity|]. split.
  - repeat constructor; lia.
  - split; [reflexivity | vm_compute; discriminate].
Qed.

Lemma odin_report :
  generateAverageTeamPowerByPlayerReport no_unicode odin_map [thorTwice] "Sheet"
    odin_result.
Proof. check_report odin_result.2. Defined.

(** C5 as stated fails: a team that lists "thor" twice counts the one
    "Thor" of a player twice, 20 where the sum over the matching records
    is 10. *)
Lemma team_total_counts_twice :
  generateAverageTeamPowerByPlayerReport no_unicode odin_map [thorTwice] "Sheet"
    odin_result ∧
  odin_map !! "odin" = Some [character "Thor" "odin" 10] ∧
  odin_result.2 !! 1%nat = Some [CString "odin"; CInt 20; CInt 20] ∧
  teamTotalPower no_unicode thorTwice [character "Thor" "odin" 10] = 20 ∧
  spec_team_total no_unicode thorTwice [character "Thor" "odin" 10] = 10 ∧
  teamTotalPower no_unicode thorTwice [character "Thor" "odin" 10] ≠
  spec_team_total no_unicode thorTwice [character "Thor" "odin" 10].
Proof.
  split; [exact odin_report|].
  repeat split; try (vm_compute; reflexivity). vm_compute. discriminate.
Qed.



(** The sort of Go 1.14 returns that table. *)
Lemma quickSort_small_tie_table :
  build_cellValues no_unicode (group_by_player tie_records) [HLK] = Some tie_table ∧
  quickSort_small tie_table 0 (Len tie_table) = Some tie_result.2.
Proof. split; vm_compute; reflexivity. Qed.


(** Scenario B of the specification: totals of 50 and 30 average to 40, and
    so do 51 and 30. *)
Example scenario_B_average : average_of [50; 30] = 40 ∧ average_of [51; 30] = 40.
Proof. split; reflexivity. Qed.

(** * The further properties on concrete inputs *)

Lemma report_independent_of_record_order_witness :
  [character "hulk" "a" 1; character "thor" "a" 2] ≡ₚ
  [character "thor" "a" 2; character "hulk" "a" 1] ∧
  build_cellValues no_unicode
    (group_by_player [character "hulk" "a" 1; character "thor" "a" 2])
    [avengers; asgardian] =
  build_cellValues no_unicode
    (group_by_player [character "thor" "a" 2; character "hulk" "a" 1])
    [avengers; asgardian].
Proof.
  assert ([character "hulk" "a" 1; character "thor" "a" 2] ≡ₚ
          [character "thor" "a" 2; character "hulk" "a" 1]) as Hp
    by apply perm_swap.
  split; [exact Hp|].
  exact (proj1 (report_independent_of_record_order no_unicode _ _
                  [avengers; asgardian] Hp)).
Defined.

Lemma two_non_int_rows_unsortable_witness :
  Less [[CString "x"]; [CString "y"]] 0 1 = Some true ∧
  Less [[CString "x"]; [CString "y"]] 1 0 = Some true.
Proof.
  pose proof (two_non_int_rows_unsortable [[CString "x"]; [CString "y"]] 0 1
                [CString "x"] [CString "y"] ltac:(lia) eq_refl eq_refl
                (ex_intro _ (CString "x") (conj eq_refl eq_refl))
                (ex_intro _ (CString "y") (conj eq_refl eq_refl)))
    as (H1 & H2 & _).
  exact (conj H1 H2).
Defined.

Lemma Less_orders_built_tables_witness :
  build_cellValues no_unicode scenario_A_map [HLK] = Some scenario_A_table ∧
  ∃ b, Less scenario_A_table 1 2 = Some b.
Proof.
  assert (build_cellValues no_unicode scenario_A_map [HLK] = Some scenario_A_table)
    as Hbuild by (vm_compute; reflexivity).
  split; [exact Hbuild|].
  exact (proj1 (Less_orders_built_tables no_unicode scenario_A_map [HLK]
                  scenario_A_table Hbuild 1 2 0
                  ltac:(simpl; lia) ltac:(simpl; lia) ltac:(simpl; lia))).
Defined.

Lemma capital_member_never_matches_witness :
  teamTotalPower no_unicode
    {| Name := "Capital"; Label := "CAP"; Characters := ["Thor"] |}
    [character "Thor" "p" 5; character "thor" "p" 7] = 0.
Proof.
  apply (capital_member_never_matches no_unicode).
  - repeat constructor.
  - repeat constructor.
Defined.

Lemma rangeAddress_injective_witness :
  rangeAddress "Flex" 6 25 = Some "Flex!A1:F25" ∧ (6 = 6 ∧ 25 = 25)%nat.
Proof.
  assert (rangeAddress "Flex" 6 25 = Some "Flex!A1:F25") as H by reflexivity.
  split; [exact H|].
  exact (rangeAddress_injective "Flex" 6 25 6 25 "Flex!A1:F25" H H).
Defined.

Lemma average_between_totals_witness :
  generateAverageTeamPowerByPlayerReport no_unicode scenario_A_map [HLK] "Sheet"
    scenario_A_result ∧
  ∃ player totals average,
    [CString "alice"; CInt 100; CInt 100] =
      CString player :: (CInt <$> totals) ++ [CInt average] ∧
    (length [HLK] = 1%nat → totals = [average]).
Proof.
  split; [exact scenario_A_report|].
  destruct (average_between_totals no_unicode scenario_A_map [HLK] "Sheet"
              scenario_A_result 0 [CString "alice"; CInt 100; CInt 100]
              scenario_A_report eq_refl)
    as (player & totals & average & H1 & H2 & _).
  exists player, totals, average. exact (conj H1 H2).
Defined.

Lemma table_independent_of_range_order_witness :
  build_cellValues_ranged no_unicode
    [(HLK, [("bob", []); ("alice", [character "Hulk" "alice" 100])])]
    ["bob"; "alice"] =
  Some scenario_A_table.
Proof.
  rewrite (table_independent_of_range_order no_unicode scenario_A_map
             [(HLK, [("bob", []); ("alice", [character "Hulk" "alice" 100])])]
             ["bob"; "alice"]).
  - vm_compute. reflexivity.
  - constructor; [|constructor]. simpl.
    apply (bool_decide_unpack _). vm_compute. exact I.
  - apply (bool_decide_unpack _). vm_compute. exact I.
Defined.

Lemma every_player_once_witness :
  generateAverageTeamPowerByPlayerReport no_unicode scenario_A_map [HLK] "Sheet"
    scenario_A_result ∧
  NoDup (player_column scenario_A_result.2).
Proof.
  split; [exact scenario_A_report|].
  exact (proj1 (proj2 (every_player_once no_unicode scenario_A_map [HLK] "Sheet"
                         scenario_A_result ltac:(discriminate) scenario_A_report))).
Defined.

Lemma distinct_averages_unique_result_witness :
  NoDup (last <$> scenario_A_result.2) ∧
  ∀ result',
    generateAverageTeamPowerByPlayerReport no_unicode scenario_A_map [HLK] "Sheet"
      result' →
    result' = scenario_A_result.
Proof.
  assert (NoDup (last <$> scenario_A_result.2)) as Hnd.
  { apply (bool_decide_unpack _). vm_compute. exact I. }
  split; [exact Hnd|]. intros result' Hgen.
  exact (distinct_averages_unique_result no_unicode scenario_A_map [HLK] "Sheet"
           scenario_A_result result' scenario_A_report Hgen Hnd).
Defined.

Lemma average_independent_of_team_order_witness :
  [avengers; asgardian] ≡ₚ [asgardian; avengers] ∧
  average_of
    (team_totals no_unicode [avengers; asgardian]
       [character "hulk" "a" 10; character "thor" "a" 21]) =
  average_of
    (team_totals no_unicode [asgardian; avengers]
       [character "hulk" "a" 10; character "thor" "a" 21]).
Proof.
  assert ([avengers; asgardian] ≡ₚ [asgardian; avengers]) as Hp by apply perm_swap.
  split; [exact Hp|].
  exact (proj2 (average_independent_of_team_order no_unicode _ _
                  [character "hulk" "a" 10; character "thor" "a" 21] Hp)).
Defined.
